(** * htmlincluder: the core API ([src/core.mjs]) and its resolution engine

    A shallow embedding of the standalone core of htmlincluder: file objects,
    clip processing, the three global file collections, directory processing,
    and the directive resolution engine and data resolver the core calls into.

    JavaScript strings are sequences of UTF-16 code units, modelled as
    [list N]; a function that can throw returns a [result]; the module-level
    mutable collections are the fields of a [World] that every operation
    threads through.  The configuration loader ([src/config-loader.mjs]) has
    a module of its own, [ConfigLoader], over the values a configuration
    holds. *)

From Stdlib Require Import Ascii String NArith ZArith Lia DecimalString.
From stdpp Require Import base option list gmap.

Local Open Scope nat_scope.
Set Warnings "-register-all".

(* ===================================================================== *)
(** ** JavaScript strings *)
(* ===================================================================== *)

Abbreviation jsstring := (list N).

(** A string literal of the source, as its code units. *)
Definition js (s : string) : jsstring :=
  List.map N_of_ascii (list_ascii_of_string s).
Arguments js s%_string : simpl never.

(** The code units [String.prototype.trim] strips and the regular
    expression class [\s] matches: WhiteSpace and LineTerminator. *)
Definition is_ws (c : N) : bool :=
  ((9 <=? c) && (c <=? 13) || (c =? 32) || (c =? 160) || (c =? 5760)
   || (8192 <=? c) && (c <=? 8202) || (c =? 8232) || (c =? 8233)
   || (c =? 8239) || (c =? 8287) || (c =? 12288) || (c =? 65279))%N.

Fixpoint skip_ws (s : jsstring) : jsstring :=
  match s with
  | c :: s' => if is_ws c then skip_ws s' else s
  | [] => []
  end.

Fixpoint take_ws (s : jsstring) : jsstring :=
  match s with
  | c :: s' => if is_ws c then c :: take_ws s' else []
  | [] => []
  end.

(** [s.trim()] *)
Definition trim (s : jsstring) : jsstring :=
  rev (skip_ws (rev (skip_ws s))).

(** [s.startsWith(p)] *)
Fixpoint starts_with (p s : jsstring) : bool :=
  match p, s with
  | [], _ => true
  | a :: p', b :: s' => (a =? b)%N && starts_with p' s'
  | _ :: _, [] => false
  end.

(** [s.endsWith(p)] *)
Definition ends_with (p s : jsstring) : bool :=
  starts_with (rev p) (rev s).

(** [s.indexOf(p) > -1] *)
Fixpoint occurs (p s : jsstring) : bool :=
  starts_with p s ||
  match s with
  | [] => false
  | _ :: s' => occurs p s'
  end.

(** What [x + y] appends for an operand that may be [undefined]. *)
Definition str_of (o : option jsstring) : jsstring :=
  match o with
  | Some s => s
  | None => js "undefined"
  end.

(* --------------------------------------------------------------------- *)
(** *** Separators of [String.prototype.split] *)

(** A separator is given by what it matches at the head of a string: the
    length of the match there, if any.  Both separators of the source match
    a non-empty text only. *)
Definition matcher := jsstring -> option nat.

(** A string separator [lit]. *)
Definition lit_match (lit : jsstring) : matcher :=
  fun s => if starts_with lit s then Some (length lit) else None.

(** The regular expression [/<opening>\s*-->/]: the opening text, white space,
    and the comment's closing delimiter.  The greedy [\s*] needs no
    backtracking, because [-] is no white space. *)
Definition tag_match (opening : jsstring) : matcher :=
  fun s =>
    if starts_with opening s then
      let r := drop (length opening) s in
      if starts_with (js "-->") (skip_ws r)
      then Some (length opening + length (take_ws r) + 3)
      else None
    else None.

(** [s.split(sep)]: the pieces between the successive matches of [sep], found
    left to right and never overlapping.  [skip] counts the code units of the
    current match still to step over. *)
Fixpoint split_go (m : matcher) (skip : nat) (s : jsstring) : list jsstring :=
  match s with
  | [] => [[]]
  | c :: s' =>
      match skip with
      | S k => split_go m k s'
      | O =>
          match m s with
          | Some (S k) => [] :: split_go m k s'
          | _ =>
              match split_go m 0 s' with
              | p :: ps => (c :: p) :: ps
              | [] => [[c]]
              end
          end
      end
  end.

Definition split (m : matcher) (s : jsstring) : list jsstring :=
  split_go m 0 s.

(* ===================================================================== *)
(** ** Results of code that can throw *)
(* ===================================================================== *)

Inductive error : Type :=
  | TypeError                      (* a method called on [undefined] *)
  | FsError (code : jsstring).     (* a rejected [fs] promise *)

Inductive result (A : Type) : Type :=
  | Ok (a : A)
  | Throw (e : error).
Arguments Ok {A} a.
Arguments Throw {A} e.

(* ===================================================================== *)
(** ** File objects ([createFileObject]) *)
(* ===================================================================== *)

(** The inner [file] field: the path and a buffer, the bytes of the content
    as read. *)
Record Vinyl : Type := mkVinyl {
  vpath : jsstring;
  contents : list N
}.

(** The UTF-8 bytes of a code point. *)
Definition utf8_bytes (cp : N) : list N :=
  (if cp <? 128 then [cp]
   else if cp <? 2048 then [192 + cp / 64; 128 + cp mod 64]
   else if cp <? 65536 then
     [224 + cp / 4096; 128 + (cp / 64) mod 64; 128 + cp mod 64]
   else
     [240 + cp / 262144; 128 + (cp / 4096) mod 64; 128 + (cp / 64) mod 64;
      128 + cp mod 64])%N.

(** [Buffer.from(s)]: the UTF-8 encoding of the string; a surrogate pair is
    one code point, a surrogate on its own is stored as U+FFFD. *)
Fixpoint Buffer_from (s : jsstring) : list N :=
  match s with
  | [] => []
  | c :: s' =>
      if ((55296 <=? c) && (c <=? 56319))%N then
        match s' with
        | d :: s'' =>
            if ((56320 <=? d) && (d <=? 57343))%N then
              utf8_bytes (65536 + (c - 55296) * 1024 + (d - 56320))%N
                ++ Buffer_from s''
            else utf8_bytes 65533 ++ Buffer_from s'
        | [] => utf8_bytes 65533
        end
      else if ((56320 <=? c) && (c <=? 57343))%N then
        utf8_bytes 65533 ++ Buffer_from s'
      else utf8_bytes c ++ Buffer_from s'
  end.

Record File : Type := mkFile {
  path : jsstring;
  name : jsstring;
  content : jsstring;
  processed : bool;
  file : Vinyl
}.

Definition set_content (f : File) (c : jsstring) : File :=
  {| path := path f; name := name f; content := c;
     processed := processed f; file := file f |}.

(* ===================================================================== *)
(** ** Clip processing ([processClip]) *)
(* ===================================================================== *)

Definition clipbefore_open : jsstring := js "<!--#clipbefore".
Definition clipafter_open : jsstring := js "<!--#clipafter".
Definition clipbetween_open : jsstring := js "<!--#clipbetween".
Definition endclipbetween_open : jsstring := js "<!--#endclipbetween".
Arguments clipbefore_open : simpl never.
Arguments clipafter_open : simpl never.
Arguments clipbetween_open : simpl never.
Arguments endclipbetween_open : simpl never.

(** The first [if] of [processClip]:
    [content.split(/<!--#clipbefore\s*-->/).splice(1)[0]
            .split('<!--#clipafter').splice(0, 1)[0]]. *)
Definition clip_before_after (c : jsstring) : result jsstring :=
  if occurs clipbefore_open c then
    match drop 1 (split (tag_match clipbefore_open) c) !! 0 with
    | None => Throw TypeError            (* [undefined.split] *)
    | Some x =>
        match take 1 (split (lit_match clipafter_open) x) !! 0 with
        | Some y => Ok y
        | None => Throw TypeError        (* not reached: see [split_not_nil] *)
        end
    end
  else Ok c.

(** The second [if] of [processClip]:
    [tmp = content.split(/<!--#clipbetween\s*-->/);
     content = tmp[0] + tmp[1].split(/<!--#endclipbetween\s*-->/)[1]]. *)
Definition clip_between (c : jsstring) : result jsstring :=
  if occurs clipbetween_open c then
    let tmp := split (tag_match clipbetween_open) c in
    match tmp !! 1 with
    | None => Throw TypeError            (* [undefined.split] *)
    | Some x =>
        Ok (str_of (tmp !! 0)
            ++ str_of (split (tag_match endclipbetween_open) x !! 1))
    end
  else Ok c.

Definition processClip (f : File) : result File :=
  match clip_before_after (content f) with
  | Throw e => Throw e
  | Ok c1 =>
      match clip_between c1 with
      | Throw e => Throw e
      | Ok c2 => Ok (set_content f c2)
      end
  end.

(* ===================================================================== *)
(** ** Data trees and the Data Resolver *)
(* ===================================================================== *)

(** A JSON-shaped value: object, array and scalar nesting.  An object keeps
    its fields in order; a key is looked up from the front. *)
Inductive json : Type :=
  | JNull
  | JBool (b : bool)
  | JNum (n : Z)
  | JStr (s : jsstring)
  | JArr (items : list json)
  | JObj (fields : list (jsstring * json)).

Fixpoint jsstring_eqb (a b : jsstring) : bool :=
  match a, b with
  | [], [] => true
  | x :: a', y :: b' => (x =? y)%N && jsstring_eqb a' b'
  | _, _ => false
  end.

Fixpoint assoc (k : jsstring) (fields : list (jsstring * json)) : option json :=
  match fields with
  | [] => None
  | (k', v) :: rest => if jsstring_eqb k k' then Some v else assoc k rest
  end.

Definition digit_of (c : N) : option nat :=
  if ((48 <=? c) && (c <=? 57))%N then Some (N.to_nat c - 48) else None.

Fixpoint parse_digits (acc : nat) (s : jsstring) : option nat :=
  match s with
  | [] => Some acc
  | c :: s' =>
      match digit_of c with
      | Some d => parse_digits (10 * acc + d) s'
      | None => None
      end
  end.

(** A numeric segment: a non-empty run of decimal digits. *)
Definition parse_index (seg : jsstring) : option nat :=
  match seg with
  | [] => None
  | _ => parse_digits 0 seg
  end.

Module Data.

(** Modelled from the spec: the Data Resolver of section 4.3 (its code,
    in [parse.mjs], is not part of the sources at hand).  One segment of the
    descent: object-key match on an object, index access for a numeric
    segment on an array, nothing below a scalar. *)
Definition step (t : json) (seg : jsstring) : option json :=
  match t with
  | JObj fields => assoc seg fields
  | JArr items =>
      match parse_index seg with
      | Some i => items !! i
      | None => None
      end
  | _ => None
  end.

(** Modelled from the spec: "descends the tree one segment at a time". *)
Fixpoint descend (t : json) (segs : list jsstring) : option json :=
  match segs with
  | [] => Some t
  | seg :: rest =>
      match step t seg with
      | Some t' => descend t' rest
      | None => None
      end
  end.

(** Modelled from the spec: "splits the path on its separator". *)
Definition segments (dottedPath : jsstring) : list jsstring :=
  split (lit_match (js ".")) dottedPath.

(** Modelled from the spec: the "empty value" returned when no default is
    given, the empty string of section 8. *)
Definition empty_value : json := JStr [].

(** Modelled from the spec: [resolve(dataTree, dottedPath, defaultValue)]
    of section 4.3: the located value, or the default when a segment is
    absent or out of range, or the empty value when there is no default.
    It is a total function: a missing path raises nothing. *)
Definition resolve (dataTree : json) (dottedPath : jsstring)
    (defaultValue : option json) : json :=
  match descend dataTree (segments dottedPath) with
  | Some v => v
  | None => default empty_value defaultValue
  end.

(** Modelled from the spec: what it means for a path to be absent from a
    tree ("any segment is absent/out of range"), read off the tree alone:
    some segment is missing or some index is out of range. *)
Inductive absent : json -> list jsstring -> Prop :=
  | absent_key fields seg rest :
      (forall v, ~ In (seg, v) fields) ->
      absent (JObj fields) (seg :: rest)
  | absent_not_index items seg rest :
      parse_index seg = None ->
      absent (JArr items) (seg :: rest)
  | absent_out_of_range items seg rest i :
      parse_index seg = Some i -> length items <= i ->
      absent (JArr items) (seg :: rest)
  | absent_below_scalar t seg rest :
      (forall items, t <> JArr items) -> (forall fields, t <> JObj fields) ->
      absent t (seg :: rest)
  | absent_deeper t seg rest t' :
      step t seg = Some t' -> absent t' rest ->
      absent t (seg :: rest).

End Data.

(* ===================================================================== *)
(** ** Directives and the Directive Scanner *)
(* ===================================================================== *)

(** Modelled from the spec: the directive kinds of section 3. *)
Inductive Kind : Type :=
  | KInsert | KWrap | KEndWrap | KData | KJsonInsert
  | KClipBefore | KClipAfter | KClipBetween | KEndClipBetween | KMiddle.

(** Modelled from the spec: a parsed occurrence of a tag, with its
    attributes and its source span (section 3). *)
Record Directive : Type := mkDirective {
  kind : Kind;
  attributes : list (jsstring * jsstring);
  span_start : nat;
  span_end : nat
}.

(** Modelled from the spec: the non-fatal conditions of section 7. *)
Inductive Condition : Type :=
  | InvalidDirective (start stop : nat)
  | MissingFragment (target : jsstring)
  | UnresolvedDirective (document : jsstring)
  | EvaluationError (document : jsstring) (start stop : nat).

(** Modelled from the spec: the configuration bundle of section 6. *)
Record Config : Type := mkConfig {
  tagKeyword : jsstring;
  filePathAttribute : jsstring;
  jsonPathAttribute : jsstring;
  iterationLimit : option nat
}.

Module Scanner.

(** Modelled from the spec: the reserved marker every directive tag begins
    with (the one the clip markers of [core.mjs] begin with). *)
Definition marker : jsstring := js "<!--#".

(** Modelled from the spec: the comment's closing delimiter. *)
Definition closing : jsstring := js "-->".

(** Modelled from the spec: the attribute that carries an inline
    expression (the [rawJson] of the configuration examples). *)
Definition expressionAttribute : jsstring := js "rawJson".

(** [s.indexOf(p)] *)
Fixpoint find (p s : jsstring) : option nat :=
  if starts_with p s then Some 0
  else match s with
       | [] => None
       | _ :: s' => S <$> find p s'
       end.

(** The value of the attribute [k], if the tag has it. *)
Fixpoint attr (k : jsstring) (l : list (jsstring * jsstring)) : option jsstring :=
  match l with
  | [] => None
  | (k', v) :: rest => if jsstring_eqb k k' then Some v else attr k rest
  end.

(** Modelled from the spec: the states of reading the attribute part of a
    tag: between pairs, in a name, after the equals sign, in a value. *)
Inductive AttrState : Type :=
  | Between
  | InName (n : jsstring)
  | AfterEq (n : jsstring)
  | InValue (n v : jsstring).

(** Modelled from the spec: the attribute part of the directive grammar of
    section 6, zero or more pairs of a name, an equals sign and a quoted
    value. *)
Fixpoint parse_attrs (st : AttrState) (s : jsstring)
    : option (list (jsstring * jsstring)) :=
  match s with
  | [] => match st with Between => Some [] | _ => None end
  | c :: s' =>
      match st with
      | Between =>
          if is_ws c then parse_attrs Between s'
          else if ((c =? 61) || (c =? 34))%N then None
          else parse_attrs (InName [c]) s'
      | InName n =>
          if (c =? 61)%N then parse_attrs (AfterEq n) s'
          else if is_ws c then None
          else parse_attrs (InName (c :: n)) s'
      | AfterEq n =>
          if (c =? 34)%N then parse_attrs (InValue n []) s' else None
      | InValue n v =>
          if (c =? 34)%N
          then cons (rev n, rev v) <$> parse_attrs Between s'
          else parse_attrs (InValue n (c :: v)) s'
      end
  end.

(** Modelled from the spec: a keyword heads the tag when white space or
    the end of the tag follows it. *)
Definition has_keyword (k inner : jsstring) : bool :=
  starts_with k inner &&
  match drop (length k) inner with
  | [] => true
  | c :: _ => is_ws c
  end.

(** Modelled from the spec: the keyword of each kind; the one of [Insert]
    is configurable. *)
Definition keywords (cfg : Config) : list (jsstring * Kind) :=
  [ (tagKeyword cfg, KInsert); (js "wrap", KWrap); (js "endwrap", KEndWrap);
    (js "data", KData); (js "jsonInsert", KJsonInsert);
    (js "clipbefore", KClipBefore); (js "clipafter", KClipAfter);
    (js "clipbetween", KClipBetween); (js "endclipbetween", KEndClipBetween);
    (js "middle", KMiddle) ].

(** Modelled from the spec: the kind a tag's keyword stands for, and the
    text after the keyword. *)
Fixpoint classify (ks : list (jsstring * Kind)) (inner : jsstring)
    : option (Kind * jsstring) :=
  match ks with
  | [] => None
  | (k, kd) :: ks' =>
      if has_keyword k inner then Some (kd, drop (length k) inner)
      else classify ks' inner
  end.

(** Modelled from the spec: "Malformed tags (missing required attribute,
    e.g. Insert without a path attribute)". *)
Definition well_formed (cfg : Config) (kd : Kind)
    (attrs : list (jsstring * jsstring)) : bool :=
  match kd with
  | KInsert | KWrap => bool_decide (is_Some (attr (filePathAttribute cfg) attrs))
  | KData | KJsonInsert =>
      bool_decide (is_Some (attr (jsonPathAttribute cfg) attrs))
      || bool_decide (is_Some (attr expressionAttribute attrs))
  | _ => true
  end.

(** Modelled from the spec: what the scanner finds at one offset. *)
Inductive Tag : Type :=
  | NoTag
  | Malformed (len : nat)
  | Found (kd : Kind) (attrs : list (jsstring * jsstring)) (len : nat).

(** Modelled from the spec: the tag that starts at the head of [s], if one
    does: the marker, a keyword, attributes, the closing delimiter. *)
Definition tag_at (cfg : Config) (s : jsstring) : Tag :=
  if starts_with marker s then
    let r := drop (length marker) s in
    match find closing r with
    | None => NoTag
    | Some j =>
        let len := length marker + j + length closing in
        match classify (keywords cfg) (take j r) with
        | None => NoTag
        | Some (kd, rest) =>
            match parse_attrs Between rest with
            | None => Malformed len
            | Some attrs =>
                if well_formed cfg kd attrs then Found kd attrs len
                else Malformed len
            end
        end
    end
  else NoTag.

(** Modelled from the spec: the Directive Scanner of section 4.1: the
    directives of a text with their source spans, left to right; a
    malformed tag is skipped and reported.  [pos] is the offset of the head
    of [s] in the host text; [skip] counts the code units of the current
    tag still to step over. *)
Fixpoint scan_go (cfg : Config) (pos skip : nat) (s : jsstring)
    : list Directive * list Condition :=
  match s with
  | [] => ([], [])
  | _ :: s' =>
      match skip with
      | S k => scan_go cfg (S pos) k s'
      | O =>
          match tag_at cfg s with
          | NoTag => scan_go cfg (S pos) 0 s'
          | Malformed len =>
              let '(ds, cs) := scan_go cfg (S pos) (len - 1) s' in
              (ds, InvalidDirective pos (pos + len) :: cs)
          | Found kd attrs len =>
              let '(ds, cs) := scan_go cfg (S pos) (len - 1) s' in
              (mkDirective kd attrs pos (pos + len) :: ds, cs)
          end
      end
  end.

(** Modelled from the spec: the scanner on a whole text. *)
Definition scan (cfg : Config) (text : jsstring)
    : list Directive * list Condition :=
  scan_go cfg 0 0 text.

End Scanner.

(* ===================================================================== *)
(** ** The Resolution Engine *)
(* ===================================================================== *)

Module Engine.

(** Modelled from the spec: what one document's resolution reads: the
    configuration, the data tree, the Fragment Registry (the stored content
    under a path, per category),
    how a directive's path is resolved against the host document, the
    Expression Evaluator on the caller's capability table (the settled
    value of an expression text, [None] when it fails), and the conversion
    of a value to text. *)
Record Env : Type := mkEnv {
  config : Config;
  dataTree : json;
  insertFragment : jsstring -> option jsstring;
  wrapFragment : jsstring -> option jsstring;
  resolvePath : jsstring -> jsstring -> jsstring;
  evaluate : jsstring -> option json;
  stringify : json -> jsstring
}.

(** Modelled from the spec: a substitution the current pass will perform,
    one constructor for each case of step 3. *)
Inductive Action : Type :=
  | DoInsert (d : Directive) (target : jsstring)
  | DoData (d : Directive) (jsonPath : jsstring) (dflt : option jsstring)
  | DoExpr (d : Directive) (expr : jsstring)
  | DoWrap (d close : Directive) (target : jsstring) (body : jsstring).

(** The span an action replaces. *)
Definition action_start (a : Action) : nat :=
  match a with
  | DoInsert d _ | DoData d _ _ | DoExpr d _ | DoWrap d _ _ _ => span_start d
  end.

Definition action_stop (a : Action) : nat :=
  match a with
  | DoInsert d _ | DoData d _ _ | DoExpr d _ => span_end d
  | DoWrap _ close _ _ => span_end close
  end.

(** Modelled from the spec: the inline expression a directive carries. *)
Definition expression (d : Directive) : option jsstring :=
  Scanner.attr Scanner.expressionAttribute (attributes d).

(** Modelled from the spec: a directive the engine substitutes; clip
    markers, [Middle] and a closing tag are left to their own processors. *)
Definition actionable (d : Directive) : bool :=
  match kind d with
  | KInsert | KWrap | KData | KJsonInsert => true
  | _ => bool_decide (is_Some (expression d))
  end.

(** Modelled from the spec: a paired directive matches "the nearest
    unmatched closing tag to its opener": the directives strictly inside
    the pair, and the closing tag. *)
Fixpoint find_endwrap (depth : nat) (ds : list Directive)
    : option (list Directive * Directive) :=
  match ds with
  | [] => None
  | d :: ds' =>
      match kind d, depth with
      | KEndWrap, O => Some ([], d)
      | KEndWrap, S k => prod_map (cons d) id <$> find_endwrap k ds'
      | KWrap, _ => prod_map (cons d) id <$> find_endwrap (S depth) ds'
      | _, _ => prod_map (cons d) id <$> find_endwrap depth ds'
      end
  end.

Definition plus_action (a : Action) (r : list Action * list Condition) :=
  (a :: r.1, r.2).
Definition plus_condition (c : Condition) (r : list Action * list Condition) :=
  (r.1, c :: r.2).

(** Modelled from the spec: step 3 of section 4.6, which directive is
    resolved how, left to right.  A pair is resolved once nothing
    substitutable is left inside it ("innermost pair resolved first"), so
    the spans substituted in one pass never overlap.  [opens] counts the
    matched openers whose closing tag is still ahead. *)
Fixpoint plan_go (cfg : Config) (text : jsstring) (opens : nat)
    (ds : list Directive) : list Action * list Condition :=
  match ds with
  | [] => ([], [])
  | d :: ds' =>
      match kind d with
      | KInsert =>
          match Scanner.attr (filePathAttribute cfg) (attributes d) with
          | Some p => plus_action (DoInsert d p) (plan_go cfg text opens ds')
          | None => plan_go cfg text opens ds'
          end
      | KData | KJsonInsert =>
          match Scanner.attr (jsonPathAttribute cfg) (attributes d), expression d with
          | Some p, _ =>
              plus_action (DoData d p (Scanner.attr (js "default") (attributes d)))
                          (plan_go cfg text opens ds')
          | None, Some e => plus_action (DoExpr d e) (plan_go cfg text opens ds')
          | None, None => plan_go cfg text opens ds'
          end
      | KWrap =>
          match find_endwrap 0 ds', Scanner.attr (filePathAttribute cfg) (attributes d) with
          | Some (inner, close), Some p =>
              if forallb (fun i => negb (actionable i)) inner
              then plus_action
                     (DoWrap d close p
                        (take (span_start close - span_end d) (drop (span_end d) text)))
                     (plan_go cfg text (S opens) ds')
              else plan_go cfg text (S opens) ds'
          | Some _, None => plan_go cfg text (S opens) ds'
          | None, _ =>
              plus_condition (InvalidDirective (span_start d) (span_end d))
                             (plan_go cfg text opens ds')
          end
      | KEndWrap =>
          match opens with
          | S k => plan_go cfg text k ds'
          | O => plus_condition (InvalidDirective (span_start d) (span_end d))
                                (plan_go cfg text 0 ds')
          end
      | _ =>
          match expression d with
          | Some e => plus_action (DoExpr d e) (plan_go cfg text opens ds')
          | None => plan_go cfg text opens ds'
          end
      end
  end.

(** Modelled from the spec: steps 1 to 3 of a pass: scan, then decide the
    substitutions.  The conditions are those of the scanner followed by
    those of the pairing. *)
Definition plan (cfg : Config) (text : jsstring) : list Action * list Condition :=
  let '(ds, invalid) := Scanner.scan cfg text in
  let '(acts, mismatched) := plan_go cfg text 0 ds in
  (acts, invalid ++ mismatched).

(** Modelled from the spec: step 4, "spans replaced, not appended".  The
    substitutions come sorted by offset and do not overlap; [pos] is the
    offset of the head of [s]. *)
Fixpoint splice_go (pos : nat) (s : jsstring)
    (subs : list (nat * nat * jsstring)) : jsstring :=
  match subs with
  | [] => s
  | (a, b, r) :: subs' =>
      take (a - pos) s ++ r ++ splice_go b (drop (b - pos) s) subs'
  end.

(** Modelled from the spec: step 4 on a whole text. *)
Definition splice (text : jsstring) (subs : list (nat * nat * jsstring)) : jsstring :=
  splice_go 0 text subs.

(** Modelled from the spec: the outcome of resolving a text: the text, the
    conditions met, and the number of passes performed so far. *)
Definition Outcome : Type := jsstring * list Condition * nat.

(** Modelled from the spec: the [Middle] markers of a layout shell. *)
Definition middles (cfg : Config) (shell : jsstring) : list Directive :=
  List.filter (fun d => match kind d with KMiddle => true | _ => false end)
              (Scanner.scan cfg shell).1.

(** Modelled from the spec: step 3 of section 4.6 for one directive.
    [self] resolves a referenced fragment's own directives before it is
    spliced into the host; [None] is a resolution that does not end. *)
Definition dispatch (self : jsstring -> jsstring -> nat -> option Outcome)
    (env : Env) (host : jsstring) (a : Action) (used : nat) : option Outcome :=
  match a with
  | DoInsert _ p =>
      let target := resolvePath env host p in
      match insertFragment env target with
      | None => Some ([], [MissingFragment target], used)
      | Some c => self target c used
      end
  | DoData _ p dflt =>
      Some (stringify env (Data.resolve (dataTree env) p (JStr <$> dflt)), [], used)
  | DoExpr d e =>
      match evaluate env e with
      | Some v => Some (stringify env v, [], used)
      | None => Some ([], [EvaluationError host (span_start d) (span_end d)], used)
      end
  | DoWrap d close p body =>
      let target := resolvePath env host p in
      match wrapFragment env target with
      | None => Some ([], [MissingFragment target], used)
      | Some shell =>
          match middles (config env) shell with
          | [] => Some (shell, [InvalidDirective (span_start d) (span_end close)], used)
          | ms =>
              Some (splice shell (List.map (fun m => (span_start m, span_end m, body)) ms),
                    [], used)
          end
      end
  end.

(** Modelled from the spec: the directives of one pass, "left-to-right". *)
Fixpoint dispatch_all (self : jsstring -> jsstring -> nat -> option Outcome)
    (env : Env) (host : jsstring) (acts : list Action) (used : nat)
    : option (list (nat * nat * jsstring) * list Condition * nat) :=
  match acts with
  | [] => Some ([], [], used)
  | a :: acts' =>
      match dispatch self env host a used with
      | None => None
      | Some (r, cs, used1) =>
          match dispatch_all self env host acts' used1 with
          | None => None
          | Some (subs, cs', used2) =>
              Some ((action_start a, action_stop a, r) :: subs, cs ++ cs', used2)
          end
      end
  end.

(** Modelled from the spec: the "caller-configured iteration cap (unbounded
    if unset)". *)
Definition cap_reached (limit : option nat) (used : nat) : bool :=
  match limit with
  | Some n => n <=? used
  | None => false
  end.

(** Modelled from the spec: the fixed-point algorithm of section 4.6.
    Nothing left to substitute: [Stable].  The cap reached with directives
    remaining: [IterationExceeded], the text as it stands with an
    [UnresolvedDirective] condition.  Otherwise one more pass is counted,
    its substitutions are spliced in, and the result is scanned again.  The
    passes of a fragment resolved on behalf of its host count against the
    host's cap.  Without a cap the loop need not end; [fuel] bounds the
    depth of the unfolding and [None] stands for a run that exceeds it. *)
Fixpoint resolve (fuel : nat) (env : Env) (host : jsstring) (text : jsstring)
    (used : nat) : option Outcome :=
  match fuel with
  | O => None
  | S fuel' =>
      let '(acts, invalid) := plan (config env) text in
      match acts with
      | [] => Some (text, invalid, used)
      | _ :: _ =>
          if cap_reached (iterationLimit (config env)) used
          then Some (text, invalid ++ [UnresolvedDirective host], used)
          else
            match dispatch_all (resolve fuel' env) env host acts (S used) with
            | None => None
            | Some (subs, cs, used1) =>
                match resolve fuel' env host (splice text subs) used1 with
                | None => None
                | Some (t, cs', used2) => Some (t, invalid ++ cs ++ cs', used2)
                end
            end
      end
  end.

End Engine.

(* ===================================================================== *)
(** ** Options, the module state and the runtime *)
(* ===================================================================== *)

Module Options.

(** The processing options a caller passes ([defaultConfig.options] of
    [config-loader.mjs]); a field left out is [None].  The capability table
    [rawJsonPlugins] is given by what an expression text settles to when
    it is invoked on the table ([None]: the evaluation fails). *)
Record t : Type := mk {
  jsonInput : option json;
  insertPattern : option jsstring;
  filePathAttribute : option jsstring;
  jsonPathAttribute : option jsstring;
  rawJsonPlugins : jsstring -> option json;
  limitIterations : option nat
}.

(** [options = {}] *)
Definition empty : t := mk None None None None (fun _ => None) None.

End Options.

(** The state of the modules: the options [setOptions] stored, the three
    collections [pageFiles], [insertFiles] and [wrapFiles] of [config.mjs]
    (an array and two objects keyed by path), and the files written so far,
    latest first. *)
Record World : Type := mkWorld {
  options : Options.t;
  pageFiles : list File;
  insertFiles : gmap jsstring File;
  wrapFiles : gmap jsstring File;
  written : list (jsstring * jsstring)
}.

(** A directory tree as [fs.readdir] with [withFileTypes] shows it. *)
Inductive FsNode : Type :=
  | Directory (entries : list (jsstring * FsNode))
  | RegularFile
  | OtherEntry
  | Unreadable (code : jsstring).

(** The Node runtime the code runs on: [process], [path], [fs], and the
    conversion of a value to text. *)
Record Platform : Type := mkPlatform {
  cwd : jsstring;
  path_join : jsstring -> jsstring -> jsstring;
  path_basename : jsstring -> jsstring;
  path_dirname : jsstring -> jsstring;
  path_relative : jsstring -> jsstring -> jsstring;
  path_resolve : jsstring -> jsstring -> jsstring;
  readdir : jsstring -> FsNode;
  readFile : jsstring -> result jsstring;
  mkdir : jsstring -> result unit;
  writeFile : jsstring -> jsstring -> result unit;
  to_text : json -> jsstring
}.

(** Modelled from the spec: [setOptions] of [config.mjs], which is not part
    of the sources at hand: it keeps the caller's options for the engine. *)
Definition setOptions (o : Options.t) (w : World) : World :=
  {| options := o; pageFiles := pageFiles w; insertFiles := insertFiles w;
     wrapFiles := wrapFiles w; written := written w |}.

(** Modelled from the spec: the configuration bundle of section 6 with its
    defaults: keyword [insert], attributes [path] and [jsonPath], no cap. *)
Definition config_of (o : Options.t) : Config :=
  {| tagKeyword := default (js "insert") (Options.insertPattern o);
     filePathAttribute := default (js "path") (Options.filePathAttribute o);
     jsonPathAttribute := default (js "jsonPath") (Options.jsonPathAttribute o);
     iterationLimit := Options.limitIterations o |}.

(** The reserved marker characters of the file names, as [loadDependencies]
    tests them. *)
Definition insert_marker : jsstring := js "-".
Definition wrap_marker : jsstring := js "_".
Arguments insert_marker : simpl never.
Arguments wrap_marker : simpl never.

(** Modelled from the spec: the categories of a Fragment Record. *)
Inductive Category : Type := Page | InsertFragment | WrapFragment.

(** Modelled from the spec: the category of section 3, "derived once, from
    the filename". *)
Definition category (fileName : jsstring) : Category :=
  if starts_with insert_marker fileName then InsertFragment
  else if starts_with wrap_marker fileName then WrapFragment
  else Page.

(** Modelled from the spec: a page record inserted or overwritten, "keys
    unique": a record with the same path is replaced where it stands, another
    record comes last. *)
Fixpoint put_page (f : File) (pages : list File) : list File :=
  match pages with
  | [] => [f]
  | p :: rest =>
      if jsstring_eqb (path p) (path f) then f :: rest else p :: put_page f rest
  end.

(** Modelled from the spec: [configureFiles] of [config.mjs], which is not
    part of the sources at hand: the record goes to the partition of its
    category, keyed by its path; a record already under that key is
    overwritten. *)
Definition configureFiles (f : File) (w : World) : World :=
  match category (name f) with
  | InsertFragment =>
      {| options := options w; pageFiles := pageFiles w;
         insertFiles := <[path f := f]> (insertFiles w);
         wrapFiles := wrapFiles w; written := written w |}
  | WrapFragment =>
      {| options := options w; pageFiles := pageFiles w;
         insertFiles := insertFiles w;
         wrapFiles := <[path f := f]> (wrapFiles w); written := written w |}
  | Page =>
      {| options := options w; pageFiles := put_page f (pageFiles w);
         insertFiles := insertFiles w;
         wrapFiles := wrapFiles w; written := written w |}
  end.

(** Modelled from the spec: the environment [processFile] runs the engine
    in: the stored options, the data tree passed in, the contents of
    [insertFiles] and [wrapFiles], a directive's path resolved against the
    host's directory, and the capability table of the options. *)
Definition engine_env (pf : Platform) (w : World) (jsonInput : json) : Engine.Env :=
  {| Engine.config := config_of (options w);
     Engine.dataTree := jsonInput;
     Engine.insertFragment := fun p => content <$> insertFiles w !! p;
     Engine.wrapFragment := fun p => content <$> wrapFiles w !! p;
     Engine.resolvePath := fun host p => path_resolve pf (path_dirname pf host) p;
     Engine.evaluate := Options.rawJsonPlugins (options w);
     Engine.stringify := to_text pf |}.

(** Modelled from the spec: [processFile] of [parse.mjs], which is not part
    of the sources at hand: the Resolution Engine run on the file's content
    with the file's path as host; the conditions come with the processed
    file.  The model covers the fragments that are registered when the run
    starts: a path that is not registered gives [MissingFragment], and the
    load of an unseen fragment on demand, with its registration, is left
    out, so the collections are read and not changed here. *)
Definition processFile (fuel : nat) (pf : Platform) (w : World) (f : File)
    (jsonInput : json) : option (File * list Condition) :=
  match Engine.resolve fuel (engine_env pf w jsonInput) (path f) (content f) 0 with
  | None => None
  | Some (text, conds, _) => Some (set_content f text, conds)
  end.

(* ===================================================================== *)
(** ** The core API ([src/core.mjs]) *)
(* ===================================================================== *)

(** [createFileObject(filePath, content)] *)
Definition createFileObject (pf : Platform) (filePath content : jsstring) : File :=
  {| path := filePath;
     name := path_basename pf filePath;
     content := trim content;
     processed := false;
     file := {| vpath := filePath; contents := Buffer_from content |} |}.

(** [hashFile(file)]: clip, then categorize.  When the clipping throws,
    [configureFiles] is not reached. *)
Definition hashFile (f : File) (w : World) : result unit * World :=
  match processClip f with
  | Throw e => (Throw e, w)
  | Ok f' => (Ok tt, configureFiles f' w)
  end.

(** [discoverFiles(dir, fileList)] on the tree [node] found at [dir]. *)
Fixpoint discoverFiles (pf : Platform) (dir : jsstring) (node : FsNode)
    (fileList : list jsstring) : result (list jsstring) :=
  match node with
  | Directory entries =>
      (fix each (es : list (jsstring * FsNode)) (fl : list jsstring) :=
         match es with
         | [] => Ok fl
         | (entry_name, e) :: es' =>
             let fullPath := path_join pf dir entry_name in
             match e with
             | Directory _ | Unreadable _ =>
                 match discoverFiles pf fullPath e fl with
                 | Ok fl' => each es' fl'
                 | Throw err => Throw err
                 end
             | RegularFile =>
                 each es' (if ends_with (js ".html") fullPath
                           then fl ++ [fullPath] else fl)
             | OtherEntry => each es' fl
             end
         end) entries fileList
  | Unreadable code => Throw (FsError code)
  | RegularFile | OtherEntry => Throw (FsError (js "ENOTDIR"))
  end.

(** [ensureDir(dirPath)]: only [EEXIST] is swallowed. *)
Definition ensureDir (pf : Platform) (dirPath : jsstring) : result unit :=
  match mkdir pf dirPath with
  | Throw (FsError code) =>
      if jsstring_eqb code (js "EEXIST") then Ok tt else Throw (FsError code)
  | r => r
  end.

(** [reset()]: [pageFiles.length = 0], and every own key of [insertFiles]
    and of [wrapFiles] deleted in turn. *)
Definition delete_keys (m : gmap jsstring File) : gmap jsstring File :=
  foldr (fun key acc => delete key acc) m (map_to_list m).*1.

Definition reset (w : World) : World :=
  {| options := options w;
     pageFiles := [];
     insertFiles := delete_keys (insertFiles w);
     wrapFiles := delete_keys (wrapFiles w);
     written := written w |}.

(** The loop of [loadDependencies]: "Only load insert (-) and wrap (_)
    files". *)
Fixpoint loadEach (pf : Platform) (allFiles : list jsstring) (w : World)
    : result unit * World :=
  match allFiles with
  | [] => (Ok tt, w)
  | filePath :: rest =>
      let fileName := path_basename pf filePath in
      if starts_with insert_marker fileName || starts_with wrap_marker fileName then
        match readFile pf filePath with
        | Throw e => (Throw e, w)
        | Ok content =>
            match hashFile (createFileObject pf filePath content) w with
            | (Throw e, w') => (Throw e, w')
            | (Ok _, w') => loadEach pf rest w'
            end
        end
      else loadEach pf rest w
  end.

(** [loadDependencies(baseDir, options)] *)
Definition loadDependencies (pf : Platform) (baseDir : jsstring)
    (o : Options.t) (w : World) : result unit * World :=
  let w1 := setOptions o w in
  match discoverFiles pf baseDir (readdir pf baseDir) [] with
  | Throw e => (Throw e, w1)
  | Ok allFiles => loadEach pf allFiles w1
  end.

(** [x || {}] for the data tree. *)
Definition falsy (j : json) : bool :=
  match j with
  | JNull | JBool false | JNum 0%Z | JStr [] => true
  | _ => false
  end.

Definition json_or_empty (o : option json) : json :=
  match o with
  | Some j => if falsy j then JObj [] else j
  | None => JObj []
  end.

(** The configuration [processDirectory] destructures. *)
Record DirConfig : Type := mkDirConfig {
  srcDir : jsstring;
  destDir : option jsstring;
  dir_options : Options.t;
  files : option (list jsstring)
}.

(** An element of the array [processDirectory] returns. *)
Record Entry : Type := mkEntry {
  entry_path : jsstring;
  entry_name : jsstring;
  entry_content : jsstring
}.

(** The first loop of [processDirectory]: "Hash all files". *)
Fixpoint hashEach (pf : Platform) (allFiles : list jsstring) (w : World)
    : result unit * World :=
  match allFiles with
  | [] => (Ok tt, w)
  | filePath :: rest =>
      match readFile pf filePath with
      | Throw e => (Throw e, w)
      | Ok content =>
          match hashFile (createFileObject pf filePath content) w with
          | (Throw e, w') => (Throw e, w')
          | (Ok _, w') => hashEach pf rest w'
          end
      end
  end.

Definition add_written (p c : jsstring) (w : World) : World :=
  {| options := options w; pageFiles := pageFiles w;
     insertFiles := insertFiles w; wrapFiles := wrapFiles w;
     written := (p, c) :: written w |}.

(** "Write to destination if provided": [if (destDir) { ... }]. *)
Definition write_out (pf : Platform) (cfg : DirConfig) (f : File)
    (text : jsstring) (w : World) : result unit * World :=
  match destDir cfg with
  | None | Some [] => (Ok tt, w)
  | Some dest =>
      let relativePath := path_relative pf (srcDir cfg) (path f) in
      let destPath := path_join pf dest relativePath in
      match ensureDir pf (path_dirname pf destPath) with
      | Throw e => (Throw e, w)
      | Ok _ =>
          match writeFile pf destPath text with
          | Throw e => (Throw e, w)
          | Ok _ => (Ok tt, add_written destPath text w)
          end
      end
  end.

(** The second loop of [processDirectory]: "Process all page files".  The
    outer [None] is a resolution that does not end. *)
Fixpoint processEach (fuel : nat) (pf : Platform) (cfg : DirConfig)
    (pages : list File) (results : list Entry) (w : World)
    : option (result (list Entry) * World) :=
  match pages with
  | [] => Some (Ok results, w)
  | f :: rest =>
      match processFile fuel pf w f
              (json_or_empty (Options.jsonInput (dir_options cfg))) with
      | None => None
      | Some (processed_file, _) =>
          let results' :=
            results ++ [ {| entry_path := path f; entry_name := name f;
                            entry_content := content processed_file |} ] in
          match write_out pf cfg f (content processed_file) w with
          | (Throw e, w') => Some (Throw e, w')
          | (Ok _, w') => processEach fuel pf cfg rest results' w'
          end
      end
  end.

(** [processDirectory(config)] *)
Definition processDirectory (fuel : nat) (pf : Platform) (cfg : DirConfig)
    (w : World) : option (result (list Entry) * World) :=
  let w1 := setOptions (dir_options cfg) w in
  let discovered :=
    match files cfg with
    | Some l => Ok l
    | None => discoverFiles pf (srcDir cfg) (readdir pf (srcDir cfg)) []
    end in
  match discovered with
  | Throw e => Some (Throw e, w1)
  | Ok allFiles =>
      match hashEach pf allFiles w1 with
      | (Throw e, w2) => Some (Throw e, w2)
      | (Ok _, w2) => processEach fuel pf cfg (pageFiles w2) [] w2
      end
  end.

(** [processSingleFile(filePath, options)] *)
Definition processSingleFile (fuel : nat) (pf : Platform) (filePath : jsstring)
    (o : Options.t) (w : World) : option (result Entry * World) :=
  let w1 := setOptions o w in
  match readFile pf filePath with
  | Throw e => Some (Throw e, w1)
  | Ok raw =>
      let f := createFileObject pf filePath raw in
      match processFile fuel pf w1 f (json_or_empty (Options.jsonInput o)) with
      | None => None
      | Some (processed_file, _) =>
          Some (Ok {| entry_path := path f; entry_name := name f;
                      entry_content := content processed_file |}, w1)
      end
  end.

(** The [context] argument of [processContent]. *)
Record Context : Type := mkContext {
  basePath : option jsstring;
  ctx_options : option Options.t
}.

(** [processContent(content, context)] *)
Definition processContent (fuel : nat) (pf : Platform) (text : jsstring)
    (ctx : Context) (w : World) : option (result jsstring * World) :=
  let base := default (cwd pf) (basePath ctx) in
  let o := default Options.empty (ctx_options ctx) in
  let w1 := setOptions o w in
  let f := createFileObject pf (path_join pf base (js "virtual-file.html")) text in
  match processFile fuel pf w1 f (json_or_empty (Options.jsonInput o)) with
  | None => None
  | Some (processed_file, _) => Some (Ok (content processed_file), w1)
  end.

(* ===================================================================== *)
(** ** A concrete runtime *)
(* ===================================================================== *)

(** The POSIX [path.basename]: trailing slashes dropped, then what follows
    the last slash. *)
Fixpoint drop_slashes (s : jsstring) : jsstring :=
  match s with
  | c :: s' => if (c =? 47)%N then drop_slashes s' else s
  | [] => []
  end.

Fixpoint until_slash (s : jsstring) : jsstring :=
  match s with
  | c :: s' => if (c =? 47)%N then [] else c :: until_slash s'
  | [] => []
  end.

Fixpoint after_slash (s : jsstring) : jsstring :=
  match s with
  | c :: s' => if (c =? 47)%N then s' else after_slash s'
  | [] => []
  end.

Definition posix_basename (p : jsstring) : jsstring :=
  rev (until_slash (drop_slashes (rev p))).

Definition posix_dirname (p : jsstring) : jsstring :=
  rev (after_slash (drop_slashes (rev p))).

Definition plain_join (a b : jsstring) : jsstring := a ++ js "/" ++ b.

Definition plain_text (j : json) : jsstring :=
  match j with
  | JStr s => s
  | JNull => js "null"
  | JBool true => js "true"
  | JBool false => js "false"
  | _ => js "[object Object]"
  end.

(** A runtime over an in-memory disk: a directory tree at every directory
    asked for, and the files' contents by path.  Its path functions are the
    POSIX ones on paths that are already normalised; a directive's path is
    taken relative to the host's directory. *)
Definition memory_platform (tree : jsstring -> FsNode)
    (disk : list (jsstring * jsstring)) : Platform :=
  {| cwd := js "/work";
     path_join := plain_join;
     path_basename := posix_basename;
     path_dirname := posix_dirname;
     path_relative := fun from to => drop (S (length from)) to;
     path_resolve := plain_join;
     readdir := tree;
     readFile := fun p =>
       match Scanner.attr p disk with
       | Some c => Ok c
       | None => Throw (FsError (js "ENOENT"))
       end;
     mkdir := fun _ => Ok tt;
     writeFile := fun _ _ => Ok tt;
     to_text := plain_text |}.

Definition empty_world : World :=
  {| options := Options.empty; pageFiles := []; insertFiles := ∅;
     wrapFiles := ∅; written := [] |}.

(** A record is registered when one of the three collections holds it. *)
Definition registered (w : World) (r : File) : Prop :=
  In r (pageFiles w)
  \/ (exists k, insertFiles w !! k = Some r)
  \/ (exists k, wrapFiles w !! k = Some r).

(** A marker in full: the opening text, white space, and the comment's
    closing delimiter; this is what [/<opening>\s*-->/] matches. *)
Definition tag (opening m : jsstring) : Prop :=
  exists ws, forallb is_ws ws = true /\ m = opening ++ ws ++ js "-->".

(** Some marker with this opening starts somewhere in [s]. *)
Fixpoint has_tag (opening s : jsstring) : bool :=
  bool_decide (is_Some (tag_match opening s)) ||
  match s with
  | [] => false
  | _ :: s' => has_tag opening s'
  end.

(** An opening text begins with [<] and has no other [<]. *)
Definition opening_ok (o : jsstring) : bool :=
  match o with
  | c :: tl => (c =? 60)%N && forallb (fun x => negb (x =? 60)%N) tl
  | [] => false
  end.

(** A file object as [createFileObject] builds it on the concrete runtime. *)
Definition fragment (filePath text : jsstring) : File :=
  createFileObject (memory_platform (fun _ => Unreadable (js "ENOENT")) [])
                   filePath text.

(** No tag starts anywhere in [s]. *)
Definition tag_free (cfg : Config) (s : jsstring) : Prop :=
  forall i, Scanner.tag_at cfg (drop i s) = Scanner.NoTag.

(** The conditions hold an [UnresolvedDirective]. *)
Definition unresolved (cs : list Condition) : Prop :=
  exists document, In (UnresolvedDirective document) cs.

(** The document at [hostPath] with text [hostText] inserts the fragment
    registered under [targetPath]: its pass holds an insert whose path
    resolves to it. *)
Definition inserts (env : Engine.Env) (hostPath hostText targetPath : jsstring) : Prop :=
  exists d p, In (Engine.DoInsert d p) (Engine.plan (Engine.config env) hostText).1
              /\ Engine.resolvePath env hostPath p = targetPath.

(** A resolver that, started with at least [u0] and at most [N] passes
    used, ends, and ends within [N] passes. *)
Definition bounded_from (N : nat)
    (self : jsstring -> jsstring -> nat -> option Engine.Outcome) (u0 : nat) : Prop :=
  forall host text u, u0 <= u -> u <= N ->
    exists t cs u', self host text u = Some (t, cs, u') /\ u <= u' /\ u' <= N.

(** A resolver that, on the document [p] with text [c], ends within [N]
    passes and reports an [UnresolvedDirective]. *)
Definition exceeds_from (N : nat)
    (self : jsstring -> jsstring -> nat -> option Engine.Outcome)
    (p c : jsstring) (u0 : nat) : Prop :=
  forall u, u0 <= u -> u <= N ->
    exists t cs u', self p c u = Some (t, cs, u') /\ u' <= N /\ unresolved cs.

(** An engine environment over a list of insert fragments, for a cap [N]. *)
Definition fragments_env (limit : option nat) (frags : list (jsstring * jsstring))
    : Engine.Env :=
  {| Engine.config := mkConfig (js "insert") (js "path") (js "jsonPath") limit;
     Engine.dataTree := JObj [];
     Engine.insertFragment := fun p => Scanner.attr p frags;
     Engine.wrapFragment := fun _ => None;
     Engine.resolvePath := fun host p => plain_join (posix_dirname host) p;
     Engine.evaluate := fun _ => None;
     Engine.stringify := plain_text |}.

(** The text of a tag with a path attribute: [<!--#keyword path="p" -->]. *)
Definition path_tag (keyword p : jsstring) : jsstring :=
  js "<!--#" ++ keyword ++ js " path=" ++ [34%N] ++ p ++ [34%N] ++ js " -->".

(** Two fragments that insert each other. *)
Definition text_a : jsstring := js "A[" ++ path_tag (js "insert") (js "-b.html") ++ js "]".
Definition text_b : jsstring := js "B(" ++ path_tag (js "insert") (js "-a.html") ++ js ")".

Definition cycle : list (jsstring * jsstring) :=
  [ (js "/src/-a.html", text_a); (js "/src/-b.html", text_b) ].

(** A chain: [-a.html] inserts [-b.html], which inserts [-c.html]. *)
Definition chain : list (jsstring * jsstring) :=
  [ (js "/src/-a.html", text_a);
    (js "/src/-b.html", js "B(" ++ path_tag (js "insert") (js "-c.html") ++ js ")");
    (js "/src/-c.html", js "C") ].

(** The decidable form of [inserts]. *)
Definition inserts_dec (env : Engine.Env) (hostPath hostText targetPath : jsstring) : bool :=
  existsb (fun a => match a with
                    | Engine.DoInsert _ p =>
                        jsstring_eqb (Engine.resolvePath env hostPath p) targetPath
                    | _ => false
                    end)
          (Engine.plan (Engine.config env) hostText).1.

(** The test of [loadDependencies]:
    [fileName.startsWith('-') || fileName.startsWith('_')]. *)
Definition marked (pf : Platform) (filePath : jsstring) : bool :=
  starts_with insert_marker (path_basename pf filePath)
  || starts_with wrap_marker (path_basename pf filePath).

(** The file at [p] has a record under its path in the partition of its
    name: [insertFiles] for [-], [wrapFiles] for [_]. *)
Definition stored_as_fragment (pf : Platform) (w : World) (p : jsstring) : Prop :=
  match category (path_basename pf p) with
  | InsertFragment => exists r, insertFiles w !! p = Some r /\ path r = p
  | WrapFragment => exists r, wrapFiles w !! p = Some r /\ path r = p
  | Page => False
  end.

(** A record with the name of a page document. *)
Definition page_named (f : File) : Prop := category (name f) = Page.

(** Where [processDirectory] writes the output of the page [f]. *)
Definition dest_path (pf : Platform) (cfg : DirConfig) (dest : jsstring) (f : File)
    : jsstring :=
  path_join pf dest (path_relative pf (srcDir cfg) (path f)).

(** A small source tree: a page, an insert fragment and a wrap fragment. *)
Definition site_tree : FsNode :=
  Directory [ (js "index.html", RegularFile);
              (js "notes.txt", RegularFile);
              (js "parts", Directory [ (js "-nav.html", RegularFile);
                                       (js "_base.html", RegularFile) ]) ].

Definition site_disk : list (jsstring * jsstring) :=
  [ (js "/src/index.html",
     path_tag (js "wrap") (js "parts/_base.html")
       ++ path_tag (js "insert") (js "parts/-nav.html") ++ js "<!--#endwrap -->");
    (js "/src/parts/-nav.html", js "<html><!--#clipbefore --><nav>menu</nav><!--#clipafter --></html>");
    (js "/src/parts/_base.html", js "<body><!--#middle --></body> ") ].

Definition site : Platform := memory_platform (fun _ => site_tree) site_disk.

Definition site_config : DirConfig :=
  {| srcDir := js "/src"; destDir := Some (js "/dist");
     dir_options := Options.empty; files := None |}.

(** A result entry made from the page [f]. *)
Definition entry_of_page (w : World) (e : Entry) : Prop :=
  exists f, In f (pageFiles w) /\ page_named f
            /\ entry_path e = path f /\ entry_name e = name f.

(** A written file made from the page [f]. *)
Definition write_of_page (pf : Platform) (cfg : DirConfig) (w : World)
    (pc : jsstring * jsstring) : Prop :=
  exists f dest, In f (pageFiles w) /\ page_named f
                 /\ destDir cfg = Some dest /\ pc.1 = dest_path pf cfg dest f.

(** The loop of [discoverFiles] over the entries of one directory, as a
    function of its own. *)
Fixpoint discover_entries (pf : Platform) (dir : jsstring)
    (es : list (jsstring * FsNode)) (fl : list jsstring) : result (list jsstring) :=
  match es with
  | [] => Ok fl
  | (entry_name, e) :: es' =>
      let fullPath := path_join pf dir entry_name in
      match e with
      | Directory _ | Unreadable _ =>
          match discoverFiles pf fullPath e fl with
          | Ok fl' => discover_entries pf dir es' fl'
          | Throw err => Throw err
          end
      | RegularFile =>
          discover_entries pf dir es'
            (if ends_with (js ".html") fullPath then fl ++ [fullPath] else fl)
      | OtherEntry => discover_entries pf dir es' fl
      end
  end.

(** A directory all of whose directories, at any depth, can be read. *)
Fixpoint listable (node : FsNode) : bool :=
  match node with
  | Directory entries =>
      (fix all (es : list (jsstring * FsNode)) : bool :=
         match es with
         | [] => true
         | (_, e) :: es' =>
             match e with
             | Directory _ | Unreadable _ => listable e && all es'
             | RegularFile | OtherEntry => all es'
             end
         end) entries
  | RegularFile | OtherEntry | Unreadable _ => false
  end.

(** The entries of a directory can all be traversed. *)
Fixpoint listable_entries (es : list (jsstring * FsNode)) : bool :=
  match es with
  | [] => true
  | (_, e) :: es' =>
      match e with
      | Directory _ | Unreadable _ => listable e && listable_entries es'
      | RegularFile | OtherEntry => listable_entries es'
      end
  end.

(** Induction on a directory tree, with the hypothesis for every entry of a
    directory. *)
Fixpoint FsNode_nested_ind (P : FsNode -> Prop)
    (HD : forall entries, Forall (fun ne => P ne.2) entries -> P (Directory entries))
    (HR : P RegularFile) (HO : P OtherEntry) (HU : forall code, P (Unreadable code))
    (node : FsNode) : P node :=
  match node with
  | Directory entries =>
      HD entries
         ((fix each (es : list (jsstring * FsNode)) : Forall (fun ne => P ne.2) es :=
             match es with
             | [] => @List.Forall_nil _ _
             | ne :: es' =>
                 @List.Forall_cons _ _ ne es'
                   (FsNode_nested_ind P HD HR HO HU ne.2) (each es')
             end) entries)
  | RegularFile => HR
  | OtherEntry => HO
  | Unreadable code => HU code
  end.

(** Some match of the separator starts in [p]. *)
Definition matches_in (m : matcher) (p : jsstring) : Prop :=
  exists i n, m (drop i p) = Some (S n).

(** A separator whose match at the head of a text is still one when more
    text follows. *)
Definition extends (m : matcher) : Prop :=
  forall u r n, m u = Some (S n) -> exists n', m (u ++ r) = Some (S n').

(** [p] is the full path of a regular file in the tree [node] found at
    [dir], each level joined to its directory with [path.join]. *)
Inductive file_at (pf : Platform) : jsstring -> FsNode -> jsstring -> Prop :=
| file_here (dir : jsstring) (es : list (jsstring * FsNode)) (entry_name : jsstring) :
    In (entry_name, RegularFile) es ->
    file_at pf dir (Directory es) (path_join pf dir entry_name)
| file_below (dir : jsstring) (es : list (jsstring * FsNode)) (entry_name : jsstring)
    (sub : list (jsstring * FsNode)) (p : jsstring) :
    In (entry_name, Directory sub) es ->
    file_at pf (path_join pf dir entry_name) (Directory sub) p ->
    file_at pf dir (Directory es) p.


(* ===================================================================== *)
(** ** The configuration loader ([src/config-loader.mjs]) *)
(* ===================================================================== *)

Module ConfigLoader.

(** The values a configuration holds.  An object is the list of its own
    enumerable properties, each key once; the order of the properties is not
    observed by the loader.  [VFun] is a function with no enumerable
    property of its own. *)
Inductive jsval : Type :=
| VUndefined
| VNull
| VBool (b : bool)
| VNum (z : Z)
| VNaN
| VStr (s : jsstring)
| VArr (items : list jsval)
| VObj (fields : list (jsstring * jsval))
| VFun.

(** [ToBoolean] *)
Definition truthy (v : jsval) : bool :=
  match v with
  | VUndefined | VNull | VNaN => false
  | VBool b => b
  | VNum z => negb (z =? 0)%Z
  | VStr s => negb (jsstring_eqb s [])
  | VArr _ | VObj _ | VFun => true
  end.

(** [typeof v === 'object'] *)
Definition typeof_object (v : jsval) : bool :=
  match v with
  | VNull | VArr _ | VObj _ => true
  | _ => false
  end.

(** [Array.isArray(v)] *)
Definition isArray (v : jsval) : bool :=
  match v with
  | VArr _ => true
  | _ => false
  end.

(** The own property [k] of an object. *)
Fixpoint own (fields : list (jsstring * jsval)) (k : jsstring) : option jsval :=
  match fields with
  | [] => None
  | (k', v) :: rest => if jsstring_eqb k k' then Some v else own rest k
  end.

(** [merged[k] = v] on an object with no accessor: an own property keeps
    its place, a new one comes last. *)
Fixpoint set_prop (fields : list (jsstring * jsval)) (k : jsstring) (v : jsval)
    : list (jsstring * jsval) :=
  match fields with
  | [] => [(k, v)]
  | (k', v') :: rest =>
      if jsstring_eqb k k' then (k', v) :: rest else (k', v') :: set_prop rest k v
  end.

(** The key of the array index [i]. *)
Definition index_key (i : nat) : jsstring :=
  js (NilZero.string_of_uint (Nat.to_uint i)).

(** [{ ...v }]: the own enumerable properties of [v]; the indices of an
    array or of a string, nothing for another primitive or a function. *)
Definition spread (v : jsval) : list (jsstring * jsval) :=
  match v with
  | VObj fields => fields
  | VArr items => imap (fun i x => (index_key i, x)) items
  | VStr s => imap (fun i c => (index_key i, VStr [c])) s
  | _ => []
  end.

(** The names every object inherits from [Object.prototype]. *)
Definition object_prototype_names : list jsstring :=
  [ js "constructor"; js "__defineGetter__"; js "__defineSetter__";
    js "hasOwnProperty"; js "__lookupGetter__"; js "__lookupSetter__";
    js "isPrototypeOf"; js "propertyIsEnumerable"; js "toString"; js "valueOf";
    js "__proto__"; js "toLocaleString" ].

(** [defaults[key] || {}].  [None] is a read this model does not follow:
    a property inherited from a prototype, or any property of a value that
    is no plain object. *)
Definition default_for (defaults : jsval) (key : jsstring) : option jsval :=
  match defaults with
  | VObj fields =>
      match own fields key with
      | Some d => Some (if truthy d then d else VObj [])
      | None =>
          if existsb (jsstring_eqb key) object_prototype_names
          then None else Some (VObj [])
      end
  | _ => None
  end.

(** [merged[key] = v].  The key [__proto__] names an accessor, not a
    property: [None], outside this model. *)
Definition assign (key : jsstring) (v : jsval) (merged : list (jsstring * jsval))
    : option (list (jsstring * jsval)) :=
  if jsstring_eqb key (js "__proto__") then None else Some (set_prop merged key v).

(** [mergeConfig(defaults, user)].  The loop [for (const key in user)] runs
    over the own enumerable keys of [user]: the properties of an object, the
    indices of an array or of a string, nothing otherwise. *)
Fixpoint mergeConfig (defaults user : jsval) {struct user} : option jsval :=
  match user with
  | VObj fields =>
      (fix each (l : list (jsstring * jsval)) (merged : list (jsstring * jsval))
           {struct l} : option jsval :=
         match l with
         | [] => Some (VObj merged)
         | (key, v) :: l' =>
             match v with
             | VObj _ =>
                 match default_for defaults key with
                 | Some d =>
                     match mergeConfig d v with
                     | Some m =>
                         match assign key m merged with
                         | Some merged' => each l' merged'
                         | None => None
                         end
                     | None => None
                     end
                 | None => None
                 end
             | _ =>
                 match assign key v merged with
                 | Some merged' => each l' merged'
                 | None => None
                 end
             end
         end) fields (spread defaults)
  | VArr items =>
      (fix each (l : list jsval) (i : nat) (merged : list (jsstring * jsval))
           {struct l} : option jsval :=
         match l with
         | [] => Some (VObj merged)
         | v :: l' =>
             match v with
             | VObj _ =>
                 match default_for defaults (index_key i) with
                 | Some d =>
                     match mergeConfig d v with
                     | Some m => each l' (S i) (set_prop merged (index_key i) m)
                     | None => None
                     end
                 | None => None
                 end
             | _ => each l' (S i) (set_prop merged (index_key i) v)
             end
         end) items 0 (spread defaults)
  | VStr _ =>
      Some (VObj (foldl (fun merged kv => set_prop merged kv.1 kv.2)
                        (spread defaults) (spread user)))
  | _ => Some (VObj (spread defaults))
  end.

(** The loop of [mergeConfig] over the properties of an object. *)
Fixpoint merge_fields (defaults : jsval) (l : list (jsstring * jsval))
    (merged : list (jsstring * jsval)) : option (list (jsstring * jsval)) :=
  match l with
  | [] => Some merged
  | (key, v) :: l' =>
      match v with
      | VObj _ =>
          match default_for defaults key with
          | Some d =>
              match mergeConfig d v with
              | Some m =>
                  match assign key m merged with
                  | Some merged' => merge_fields defaults l' merged'
                  | None => None
                  end
              | None => None
              end
          | None => None
          end
      | _ =>
          match assign key v merged with
          | Some merged' => merge_fields defaults l' merged'
          | None => None
          end
      end
  end.

(** [defaultConfig] *)
Definition defaultConfig : jsval :=
  VObj [ (js "srcDir", VStr (js "./src"));
         (js "destDir", VStr (js "./dist"));
         (js "options",
          VObj [ (js "jsonInput", VObj []);
                 (js "insertPattern", VNull);
                 (js "filePathAttribute", VStr (js "path"));
                 (js "jsonPathAttribute", VStr (js "jsonPath"));
                 (js "rawJsonPlugins", VObj []);
                 (js "dev",
                  VObj [ (js "limitIterations", VNull);
                         (js "printIterations", VBool false);
                         (js "printResult", VBool false);
                         (js "printPaths", VBool false) ]) ]);
         (js "files", VNull);
         (js "watch", VBool false) ].

(** How a call ends. *)
Inductive outcome (A : Type) : Type :=
| Returns (a : A)
| ThrowsError (message : jsstring)
| ThrowsTypeError.
Arguments Returns {A} a.
Arguments ThrowsError {A} message.
Arguments ThrowsTypeError {A}.

(** The read [v.name] for a name that is no index, not [length] and not
    inherited: [None] is the [TypeError] of a read on [null] or
    [undefined]. *)
Definition prop (v : jsval) (name : jsstring) : option jsval :=
  match v with
  | VUndefined | VNull => None
  | VObj fields => Some (default VUndefined (own fields name))
  | _ => Some VUndefined
  end.

(** [validateConfig(config)] *)
Definition validateConfig (config : jsval) : outcome bool :=
  match prop config (js "srcDir"), prop config (js "files"),
        prop config (js "options") with
  | Some srcDir, Some files, Some options =>
      if negb (truthy srcDir) then
        ThrowsError (js "Configuration must specify srcDir")
      else if truthy files && negb (isArray files) then
        ThrowsError (js "Configuration files must be an array")
      else if truthy options then
        match prop options (js "dev"), prop options (js "rawJsonPlugins") with
        | Some dev, Some rawJsonPlugins =>
            if truthy dev && negb (typeof_object dev) then
              ThrowsError (js "Configuration options.dev must be an object")
            else if truthy rawJsonPlugins && negb (typeof_object rawJsonPlugins) then
              ThrowsError (js "Configuration options.rawJsonPlugins must be an object")
            else Returns true
        | _, _ => ThrowsTypeError
        end
      else Returns true
  | _, _, _ => ThrowsTypeError
  end.

(** The names [findConfig] tries, in this order. *)
Definition possibleNames : list jsstring :=
  [ js "htmlincluder.config.mjs";
    js "htmlincluder.config.js";
    js "htmlincluder.config.json";
    js ".htmlincluderrc.json";
    js ".htmlincluderrc.js" ].

(** The loop of [findConfig]; [access p] is whether [fs.access(p)]
    resolves. *)
Fixpoint find_first (pf : Platform) (access : jsstring -> bool) (dir : jsstring)
    (names : list jsstring) : option jsstring :=
  match names with
  | [] => None
  | name :: rest =>
      let configPath := path_join pf dir name in
      if access configPath then Some configPath else find_first pf access dir rest
  end.

(** [findConfig(startDir = process.cwd())] *)
Definition findConfig (pf : Platform) (access : jsstring -> bool)
    (startDir : option jsstring) : option jsstring :=
  find_first pf access (default (cwd pf) startDir) possibleNames.

(** A user configuration with a nested override, and what exists on a disk
    with two configuration files. *)
Definition sample_user : jsval :=
  VObj [ (js "destDir", VNull);
         (js "options", VObj [ (js "dev", VObj [ (js "printPaths", VBool true) ]) ]);
         (js "files", VArr [ VStr (js "a.html") ]) ].

Definition sample_merged : jsval :=
  VObj [ (js "srcDir", VStr (js "./src"));
         (js "destDir", VNull);
         (js "options",
          VObj [ (js "jsonInput", VObj []);
                 (js "insertPattern", VNull);
                 (js "filePathAttribute", VStr (js "path"));
                 (js "jsonPathAttribute", VStr (js "jsonPath"));
                 (js "rawJsonPlugins", VObj []);
                 (js "dev",
                  VObj [ (js "limitIterations", VNull);
                         (js "printIterations", VBool false);
                         (js "printResult", VBool false);
                         (js "printPaths", VBool true) ]) ]);
         (js "files", VArr [ VStr (js "a.html") ]);
         (js "watch", VBool false) ].

Definition sample_access (p : jsstring) : bool :=
  jsstring_eqb p (js "/work/htmlincluder.config.json")
  || jsstring_eqb p (js "/work/.htmlincluderrc.json").

End ConfigLoader.

(* ===================================================================== *)
(** * Properties *)
(* ===================================================================== *)

(** ** Strings *)

Lemma jsstring_eqb_eq (a b : jsstring) : jsstring_eqb a b = true <-> a = b.
Proof.
  revert b. induction a as [|x a IH]; intros [|y b]; simpl; try easy.
  rewrite andb_true_iff, N.eqb_eq, IH. split.
  - intros [-> ->]. reflexivity.
  - intros [= -> ->]. easy.
Qed.

Lemma jsstring_eqb_refl (a : jsstring) : jsstring_eqb a a = true.
Proof. apply jsstring_eqb_eq. reflexivity. Qed.

Lemma starts_with_iff (p s : jsstring) :
  starts_with p s = true <-> exists r, s = p ++ r.
Proof.
  revert s. induction p as [|a p IH]; intros s; simpl.
  - split; [intros _; exists s; reflexivity | reflexivity].
  - destruct s as [|b s].
    + split; [discriminate | intros [r Hr]; discriminate].
    + rewrite andb_true_iff, N.eqb_eq, IH. split.
      * intros [-> [r ->]]. exists r. reflexivity.
      * intros [r [= -> ->]]. split; [reflexivity | exists r; reflexivity].
Qed.

Lemma starts_with_app (p r : jsstring) : starts_with p (p ++ r) = true.
Proof. apply starts_with_iff. exists r. reflexivity. Qed.

Lemma occurs_iff (p s : jsstring) :
  occurs p s = true <-> exists a b, s = a ++ p ++ b.
Proof.
  induction s as [|c s IH]; simpl.
  - rewrite orb_false_r, starts_with_iff. split.
    + intros [r Hr]. exists [], r. exact Hr.
    + intros [a [b Hab]]. destruct a; [exists b; exact Hab | discriminate].
  - rewrite orb_true_iff, starts_with_iff, IH. split.
    + intros [[r Hr] | [a [b Hab]]].
      * exists [], r. exact Hr.
      * exists (c :: a), b. simpl. rewrite Hab. reflexivity.
    + intros [[|x a] [b Hab]].
      * left. exists b. exact Hab.
      * right. injection Hab as -> ->. exists a, b. reflexivity.
Qed.

Lemma occurs_false_drop (p s : jsstring) (i : nat) :
  occurs p s = false -> starts_with p (drop i s) = false.
Proof.
  revert i. induction s as [|c s IH]; intros i H; simpl in H.
  - rewrite drop_nil. apply orb_false_elim in H. tauto.
  - apply orb_false_elim in H as [H1 H2].
    destruct i; simpl; [exact H1 | apply IH, H2].
Qed.

Lemma occurs_false_infix (p a s b : jsstring) :
  occurs p (a ++ s ++ b) = false -> occurs p s = false.
Proof.
  intros H. destruct (occurs p s) eqn:E; [|reflexivity].
  apply occurs_iff in E as [x [y ->]].
  assert (occurs p (a ++ (x ++ p ++ y) ++ b) = true) as H'.
  { apply occurs_iff. exists (a ++ x), (y ++ b).
    rewrite <- !app_assoc. reflexivity. }
  congruence.
Qed.

(** ** The registry after [reset] *)

Lemma delete_keys_lookup (l : list jsstring) (m : gmap jsstring File) (k : jsstring) :
  foldr (fun key acc => delete key acc) m l !! k
  = if bool_decide (k ∈ l) then None else m !! k.
Proof.
  induction l as [|x l IH]; simpl.
  - reflexivity.
  - destruct (decide (x = k)) as [->|Hne].
    + rewrite lookup_delete_eq.
      rewrite bool_decide_eq_true_2; [reflexivity | left].
    + rewrite lookup_delete_ne by exact Hne. rewrite IH.
      destruct (bool_decide (k ∈ l)) eqn:E.
      * apply bool_decide_eq_true_1 in E.
        rewrite bool_decide_eq_true_2; [reflexivity | right; exact E].
      * apply bool_decide_eq_false_1 in E.
        rewrite bool_decide_eq_false_2; [reflexivity |].
        intros Hin. apply elem_of_cons in Hin as [->|Hin]; [apply Hne; reflexivity | apply E, Hin].
Qed.

Lemma delete_keys_empty (m : gmap jsstring File) : delete_keys m = ∅.
Proof.
  apply map_eq. intros k. rewrite lookup_empty.
  unfold delete_keys. rewrite delete_keys_lookup.
  destruct (bool_decide (k ∈ (map_to_list m).*1)) eqn:E; [reflexivity|].
  apply bool_decide_eq_false_1 in E.
  destruct (m !! k) as [v|] eqn:Hk; [|reflexivity].
  exfalso. apply E. apply list_elem_of_fmap. exists (k, v). split; [reflexivity|].
  apply elem_of_map_to_list. exact Hk.
Qed.

(** C8. After [reset()] the three collections are empty, whatever was
    registered before: [pageFiles] has length zero and [insertFiles] and
    [wrapFiles] have no key left, so no record is registered any more. *)
Theorem reset_clears_all_partitions (w : World) :
  pageFiles (reset w) = []
  /\ insertFiles (reset w) = ∅
  /\ wrapFiles (reset w) = ∅
  /\ forall r, ~ registered (reset w) r.
Proof.
  unfold reset; simpl. rewrite !delete_keys_empty.
  repeat split; try reflexivity.
  intros r [H | [[k H] | [k H]]]; simpl in H.
  - exact H.
  - rewrite lookup_empty in H. discriminate.
  - rewrite lookup_empty in H. discriminate.
Qed.

(** ** The Data Resolver *)

Lemma assoc_Some_In (k : jsstring) (fields : list (jsstring * json)) (v : json) :
  assoc k fields = Some v -> In (k, v) fields.
Proof.
  induction fields as [|[k' v'] rest IH]; simpl; [discriminate|].
  destruct (jsstring_eqb k k') eqn:E.
  - apply jsstring_eqb_eq in E as ->. intros [= ->]. left. reflexivity.
  - intros H. right. apply IH, H.
Qed.

Lemma assoc_None_In (k : jsstring) (fields : list (jsstring * json)) :
  assoc k fields = None -> forall v, ~ In (k, v) fields.
Proof.
  induction fields as [|[k' v'] rest IH]; simpl; intros H v; [tauto|].
  destruct (jsstring_eqb k k') eqn:E; [discriminate|].
  intros [[= <- <-] | Hin].
  - rewrite jsstring_eqb_refl in E. discriminate.
  - exact (IH H v Hin).
Qed.

Lemma absent_descend (t : json) (segs : list jsstring) :
  Data.absent t segs -> Data.descend t segs = None.
Proof.
  induction 1 as [fields seg rest Hno | items seg rest Hidx
                 | items seg rest i Hidx Hlen | t seg rest Harr Hobj
                 | t seg rest t' Hstep _ IH]; simpl.
  - destruct (assoc seg fields) as [v|] eqn:E; [|reflexivity].
    apply assoc_Some_In in E. destruct (Hno v E).
  - rewrite Hidx. reflexivity.
  - rewrite Hidx. rewrite (lookup_ge_None_2 items i Hlen). reflexivity.
  - destruct t; try reflexivity.
    + destruct (Harr items eq_refl).
    + destruct (Hobj fields eq_refl).
  - rewrite Hstep. exact IH.
Qed.

Lemma descend_absent (t : json) (segs : list jsstring) :
  Data.descend t segs = None -> Data.absent t segs.
Proof.
  revert t. induction segs as [|seg rest IH]; intros t; simpl; [discriminate|].
  destruct (Data.step t seg) as [t'|] eqn:Hstep.
  - intros H. eapply Data.absent_deeper; [exact Hstep | apply IH, H].
  - intros _. destruct t; simpl in Hstep;
      try (apply Data.absent_below_scalar; intros; discriminate).
    + destruct (parse_index seg) as [i|] eqn:Hidx.
      * eapply Data.absent_out_of_range; [exact Hidx|].
        apply lookup_ge_None_1, Hstep.
      * apply Data.absent_not_index, Hidx.
    + apply Data.absent_key, assoc_None_In, Hstep.
Qed.

(** A path is absent exactly when the descent finds nothing. *)
Lemma absent_iff (t : json) (segs : list jsstring) :
  Data.absent t segs <-> Data.descend t segs = None.
Proof. split; [apply absent_descend | apply descend_absent]. Qed.

(** C7. For every data tree [T] and every dotted path [P] absent from [T]
    (a segment is missing or an index is out of range), [resolve(T, P, D)]
    is [D] and [resolve(T, P, undefined)] is the empty value.  [resolve] is
    a total function, so nothing is raised for a missing path. *)
Theorem resolve_absent_path (T : json) (P : jsstring) (D : json) :
  Data.absent T (Data.segments P) ->
  Data.resolve T P (Some D) = D
  /\ Data.resolve T P None = JStr [].
Proof.
  intros H. apply absent_descend in H. unfold Data.resolve.
  rewrite H. split; reflexivity.
Qed.

Lemma resolve_absent_path_witness :
  Data.absent (JObj [(js "site", JObj [(js "title", JStr (js "My Website"))])])
              (Data.segments (js "site.author"))
  /\ Data.resolve (JObj [(js "site", JObj [(js "title", JStr (js "My Website"))])])
                  (js "site.author") (Some (JStr (js "nobody"))) = JStr (js "nobody")
  /\ Data.resolve (JObj [(js "site", JObj [(js "title", JStr (js "My Website"))])])
                  (js "site.author") None = JStr [].
Proof.
  assert (Data.absent (JObj [(js "site", JObj [(js "title", JStr (js "My Website"))])])
                      (Data.segments (js "site.author"))) as H.
  { apply descend_absent. vm_compute. reflexivity. }
  split; [exact H|].
  exact (resolve_absent_path _ _ (JStr (js "nobody")) H).
Defined.

(** A path that is present is resolved to the value found, whatever the
    default. *)
Lemma resolve_present (T : json) (P : jsstring) (D : option json) (v : json) :
  Data.descend T (Data.segments P) = Some v -> Data.resolve T P D = v.
Proof. intros H. unfold Data.resolve. rewrite H. reflexivity. Qed.

Example resolve_index :
  Data.resolve (JObj [(js "nav", JArr [JStr (js "Home"); JStr (js "About")])])
               (js "nav.1") None = JStr (js "About")
  /\ Data.resolve (JObj [(js "nav", JArr [JStr (js "Home"); JStr (js "About")])])
               (js "nav.2") (Some JNull) = JNull.
Proof. split; vm_compute; reflexivity. Qed.

(** ** [split] *)

Lemma split_go_skip (m : matcher) (k : nat) (s : jsstring) :
  split_go m k s = split_go m 0 (drop k s).
Proof.
  revert k. induction s as [|c s IH]; intros [|k]; simpl; try reflexivity.
  apply IH.
Qed.

Lemma split_not_nil (m : matcher) (s : jsstring) : split m s <> [].
Proof.
  unfold split. destruct s as [|c s]; simpl; [discriminate|].
  destruct (m (c :: s)) as [[|k]|]; try discriminate;
    destruct (split_go m 0 s); discriminate.
Qed.

Lemma split_match (m : matcher) (s : jsstring) (n : nat) :
  m s = Some (S n) -> s <> [] -> split m s = [] :: split m (drop (S n) s).
Proof.
  unfold split. destruct s as [|c s]; [congruence|]. intros H _.
  simpl. rewrite H. rewrite split_go_skip. reflexivity.
Qed.

Lemma split_prefix (m : matcher) (pre s h : jsstring) (t : list jsstring) :
  (forall i, i < length pre -> m (drop i (pre ++ s)) = None) ->
  split m s = h :: t ->
  split m (pre ++ s) = (pre ++ h) :: t.
Proof.
  unfold split. intros Hno Hs. induction pre as [|c pre IH]; simpl.
  - exact Hs.
  - pose proof (Hno 0 ltac:(simpl; lia)) as H0. simpl in H0. rewrite H0.
    rewrite IH; [reflexivity|].
    intros i Hi. apply (Hno (S i)). simpl. lia.
Qed.

Lemma split_no_match (m : matcher) (s : jsstring) :
  (forall i, m (drop i s) = None) -> split m s = [s].
Proof.
  intros H. rewrite <- (app_nil_r s) at 1.
  rewrite (split_prefix m s [] [] []).
  - rewrite app_nil_r. reflexivity.
  - intros i _. rewrite app_nil_r. apply H.
  - reflexivity.
Qed.

(** ** Markers *)

Lemma skip_ws_app (ws r : jsstring) :
  forallb is_ws ws = true -> skip_ws (ws ++ js "-->" ++ r) = js "-->" ++ r.
Proof.
  assert (skip_ws (js "-->" ++ r) = js "-->" ++ r) as H0 by reflexivity.
  revert H0. generalize (js "-->" ++ r) as t. intros t H0.
  induction ws as [|c ws IH]; simpl; [intros _; exact H0|].
  intros H. apply andb_true_iff in H as [-> H]. apply IH, H.
Qed.

Lemma take_ws_app (ws r : jsstring) :
  forallb is_ws ws = true -> take_ws (ws ++ js "-->" ++ r) = ws.
Proof.
  assert (take_ws (js "-->" ++ r) = []) as H0 by reflexivity.
  revert H0. generalize (js "-->" ++ r) as t. intros t H0.
  induction ws as [|c ws IH]; simpl; [intros _; exact H0|].
  intros H. apply andb_true_iff in H as [-> H]. rewrite IH by exact H. reflexivity.
Qed.

Lemma take_skip_ws (s : jsstring) : s = take_ws s ++ skip_ws s.
Proof.
  induction s as [|c s IH]; simpl; [reflexivity|].
  destruct (is_ws c); simpl; [rewrite <- IH|]; reflexivity.
Qed.

Lemma take_ws_all (s : jsstring) : forallb is_ws (take_ws s) = true.
Proof.
  induction s as [|c s IH]; simpl; [reflexivity|].
  destruct (is_ws c) eqn:E; simpl; [rewrite E; exact IH | reflexivity].
Qed.

Lemma tag_match_tag (o ws r : jsstring) :
  forallb is_ws ws = true ->
  tag_match o (o ++ ws ++ js "-->" ++ r) = Some (length o + length ws + 3).
Proof.
  intros H. unfold tag_match. rewrite starts_with_app.
  rewrite drop_app_length. rewrite skip_ws_app by exact H.
  rewrite starts_with_app. rewrite take_ws_app by exact H. reflexivity.
Qed.

Lemma tag_match_Some (o s : jsstring) (n : nat) :
  tag_match o s = Some n ->
  exists ws r, forallb is_ws ws = true
               /\ s = o ++ ws ++ js "-->" ++ r
               /\ n = length o + length ws + 3.
Proof.
  unfold tag_match. destruct (starts_with o s) eqn:Ho; [|discriminate].
  apply starts_with_iff in Ho as [r0 ->]. rewrite drop_app_length.
  destruct (starts_with (js "-->") (skip_ws r0)) eqn:Hc; [|discriminate].
  apply starts_with_iff in Hc as [r Hr]. intros [= <-].
  exists (take_ws r0), r. split; [apply take_ws_all|]. split; [|reflexivity].
  rewrite <- Hr. rewrite <- take_skip_ws. reflexivity.
Qed.

Lemma tag_match_of_tag (o m r : jsstring) :
  tag o m -> tag_match o (m ++ r) = Some (length m).
Proof.
  intros [ws [Hws ->]]. rewrite <- !app_assoc.
  rewrite tag_match_tag by exact Hws.
  rewrite !length_app. f_equal. simpl. lia.
Qed.

Lemma has_tag_false_drop (o s : jsstring) (i : nat) :
  has_tag o s = false -> tag_match o (drop i s) = None.
Proof.
  revert i. induction s as [|c s IH]; intros i H; simpl in H.
  - rewrite drop_nil. apply orb_false_elim in H as [H _].
    apply bool_decide_eq_false_1 in H.
    destruct (tag_match o []) eqn:E; [|reflexivity].
    exfalso. apply H. eexists. reflexivity.
  - apply orb_false_elim in H as [H1 H2].
    destruct i; simpl; [|apply IH, H2].
    apply bool_decide_eq_false_1 in H1.
    destruct (tag_match o (c :: s)) eqn:E; [|reflexivity].
    exfalso. apply H1. eexists. reflexivity.
Qed.

Lemma has_tag_true (o a m b : jsstring) :
  tag o m -> has_tag o (a ++ m ++ b) = true.
Proof.
  intros Hm. induction a as [|c a IH]; simpl.
  - pose proof (tag_match_of_tag o m b Hm) as H.
    destruct (m ++ b); simpl; rewrite H;
      rewrite bool_decide_eq_true_2 by (eexists; reflexivity); reflexivity.
  - rewrite IH. apply orb_true_r.
Qed.

(** [has_tag] decides whether a marker occurs in the text. *)
Lemma has_tag_iff (o s : jsstring) :
  has_tag o s = true <-> exists a m b, tag o m /\ s = a ++ m ++ b.
Proof.
  split.
  - induction s as [|c s IH]; cbn [has_tag]; intros H.
    + rewrite orb_false_r in H. apply bool_decide_eq_true_1 in H as [n Hn].
      apply tag_match_Some in Hn as [ws [r [Hws [Hs _]]]].
      exists [], (o ++ ws ++ js "-->"), r. split; [exists ws; tauto|].
      rewrite app_nil_l, <- !app_assoc. exact Hs.
    + apply orb_true_iff in H as [H | H].
      * apply bool_decide_eq_true_1 in H as [n Hn].
        apply tag_match_Some in Hn as [ws [r [Hws [Hs _]]]].
        exists [], (o ++ ws ++ js "-->"), r. split; [exists ws; tauto|].
        rewrite app_nil_l, <- !app_assoc. exact Hs.
      * destruct (IH H) as [a [m [b [Hm ->]]]].
        exists (c :: a), m, b. split; [exact Hm | reflexivity].
  - intros [a [m [b [Hm ->]]]]. apply has_tag_true, Hm.
Qed.

Lemma opening_ok_inv (o : jsstring) :
  opening_ok o = true -> exists tl, o = 60%N :: tl /\ ~ In 60%N tl.
Proof.
  destruct o as [|c tl]; simpl; [discriminate|].
  intros H. apply andb_true_iff in H as [Hc Htl].
  apply N.eqb_eq in Hc as ->. exists tl. split; [reflexivity|].
  intros Hin. rewrite forallb_forall in Htl.
  specialize (Htl _ Hin). discriminate.
Qed.

Lemma tag_shape (o m : jsstring) :
  opening_ok o = true -> tag o m -> exists tl, m = 60%N :: tl /\ ~ In 60%N tl.
Proof.
  intros Ho [ws [Hws ->]]. apply opening_ok_inv in Ho as [tl [-> Htl]].
  exists (tl ++ ws ++ js "-->"). split; [reflexivity|].
  intros Hin. apply in_app_or in Hin as [Hin | Hin]; [exact (Htl Hin)|].
  apply in_app_or in Hin as [Hin | Hin].
  - rewrite forallb_forall in Hws. specialize (Hws _ Hin). discriminate.
  - simpl in Hin. intuition discriminate.
Qed.

(** A text that begins with [<] and has no other [<] cannot begin inside
    [u] and run over a [<] that follows [u]. *)
Lemma head_inside (m tl u t r : jsstring) :
  m = 60%N :: tl -> ~ In 60%N tl -> u <> [] ->
  u ++ 60%N :: t = m ++ r -> exists l, u = m ++ l.
Proof.
  intros -> Htl Hu H. apply app_eq_app in H as [l [[Hl _] | [Hl Hr]]].
  - exists l. exact Hl.
  - destruct l as [|x l].
    + exists []. rewrite app_nil_r in *. symmetry. exact Hl.
    + exfalso. simpl in Hr. injection Hr as <- _.
      destruct u as [|c u]; [congruence|].
      simpl in Hl. injection Hl as _ ->.
      apply Htl, in_or_app. right. left. reflexivity.
Qed.

Lemma tag_match_straddle (o u t : jsstring) (n : nat) :
  opening_ok o = true -> u <> [] ->
  tag_match o (u ++ 60%N :: t) = Some n -> tag_match o u = Some n.
Proof.
  intros Ho Hu H. apply tag_match_Some in H as [ws [r [Hws [Heq ->]]]].
  assert (tag o (o ++ ws ++ js "-->")) as Ht by (exists ws; split; [exact Hws | reflexivity]).
  destruct (tag_shape o _ Ho Ht) as [tl [Hm Htl]].
  destruct (head_inside _ tl u t r Hm Htl Hu) as [l Hl].
  - rewrite Heq, <- !app_assoc. reflexivity.
  - rewrite Hl, <- !app_assoc. apply tag_match_tag, Hws.
Qed.

Lemma starts_with_straddle (lit u t : jsstring) :
  opening_ok lit = true -> u <> [] ->
  starts_with lit (u ++ 60%N :: t) = true -> starts_with lit u = true.
Proof.
  intros Ho Hu H. apply starts_with_iff in H as [r Hr].
  apply opening_ok_inv in Ho as [tl [Hm Htl]].
  destruct (head_inside lit tl u t r Hm Htl Hu Hr) as [l ->].
  apply starts_with_app.
Qed.

Lemma drop_nonempty (s : jsstring) (i : nat) : i < length s -> drop i s <> [].
Proof.
  intros Hi Hd. apply (f_equal length) in Hd. rewrite length_drop in Hd.
  simpl in Hd. lia.
Qed.

Lemma no_tag_in_prefix (o pre t : jsstring) (i : nat) :
  opening_ok o = true -> has_tag o pre = false -> i < length pre ->
  tag_match o (drop i (pre ++ 60%N :: t)) = None.
Proof.
  intros Ho Hpre Hi. rewrite drop_app_le by lia.
  destruct (tag_match o (drop i pre ++ 60%N :: t)) as [n|] eqn:E; [|reflexivity].
  apply tag_match_straddle in E; [|exact Ho | apply drop_nonempty, Hi].
  rewrite (has_tag_false_drop o pre i Hpre) in E. discriminate.
Qed.

Lemma no_lit_in_prefix (lit pre t : jsstring) (i : nat) :
  opening_ok lit = true -> occurs lit pre = false -> i < length pre ->
  lit_match lit (drop i (pre ++ 60%N :: t)) = None.
Proof.
  intros Ho Hpre Hi. rewrite drop_app_le by lia. unfold lit_match.
  destruct (starts_with lit (drop i pre ++ 60%N :: t)) eqn:E; [|reflexivity].
  apply starts_with_straddle in E; [|exact Ho | apply drop_nonempty, Hi].
  rewrite (occurs_false_drop lit pre i Hpre) in E. discriminate.
Qed.

Lemma no_tag_inside (o m tl x : jsstring) (i : nat) :
  opening_ok o = true -> m = 60%N :: tl -> ~ In 60%N tl ->
  0 < i -> i < length m ->
  tag_match o (drop i (m ++ x)) = None.
Proof.
  intros Ho -> Htl Hi0 Hi. rewrite drop_app_le by lia.
  destruct i as [|i]; [lia|]. simpl in *.
  destruct (drop i tl) as [|c d] eqn:Hd.
  { exfalso. apply (drop_nonempty tl i); [lia | exact Hd]. }
  assert (In c tl) as Hc.
  { rewrite <- (take_drop i tl), Hd. apply in_or_app. right. left. reflexivity. }
  apply opening_ok_inv in Ho as [otl [-> _]].
  destruct (N.eqb_spec 60 c) as [<-|Hne]; [destruct (Htl Hc)|].
  assert (starts_with (60%N :: otl) ((c :: d) ++ x) = false) as Hs.
  { cbn [starts_with app]. apply N.eqb_neq in Hne. rewrite Hne. reflexivity. }
  unfold tag_match. rewrite Hs. reflexivity.
Qed.

(** The first marker splits the text off before it. *)
Lemma split_at_tag (o pre m x : jsstring) :
  opening_ok o = true -> has_tag o pre = false -> tag o m ->
  split (tag_match o) (pre ++ m ++ x) = pre :: split (tag_match o) x.
Proof.
  intros Ho Hpre Hm.
  destruct (tag_shape o m Ho Hm) as [tl [Hshape Htl]].
  rewrite <- (app_nil_r pre) at 2.
  apply split_prefix.
  - intros i Hi. rewrite Hshape. simpl. apply no_tag_in_prefix; assumption.
  - rewrite (split_match _ _ (length tl)).
    + rewrite Hshape at 1. change (S (length tl)) with (length (60%N :: tl)).
      rewrite <- Hshape, drop_app_length. reflexivity.
    + rewrite (tag_match_of_tag o m x Hm), Hshape. reflexivity.
    + rewrite Hshape. discriminate.
Qed.

Lemma split_at_lit (lit pre x : jsstring) :
  opening_ok lit = true -> occurs lit pre = false ->
  split (lit_match lit) (pre ++ lit ++ x) = pre :: split (lit_match lit) x.
Proof.
  intros Ho Hpre.
  destruct (opening_ok_inv lit Ho) as [tl [-> Htl]].
  rewrite <- (app_nil_r pre) at 2.
  apply split_prefix.
  - intros i Hi. simpl. apply no_lit_in_prefix; assumption.
  - rewrite (split_match _ _ (length tl)).
    + change (S (length tl)) with (length (60%N :: tl)).
      rewrite drop_app_length. reflexivity.
    + unfold lit_match. rewrite starts_with_app. reflexivity.
    + discriminate.
Qed.

Lemma split_tag_free (o s : jsstring) :
  has_tag o s = false -> split (tag_match o) s = [s].
Proof.
  intros H. apply split_no_match. intros i. apply has_tag_false_drop, H.
Qed.

Lemma split_lit_free (lit s : jsstring) :
  occurs lit s = false -> split (lit_match lit) s = [s].
Proof.
  intros H. apply split_no_match. intros i. unfold lit_match.
  rewrite (occurs_false_drop lit s i H). reflexivity.
Qed.

(** ** Clip processing *)

Lemma clipbefore_ok : opening_ok clipbefore_open = true.
Proof. reflexivity. Qed.
Lemma clipafter_ok : opening_ok clipafter_open = true.
Proof. reflexivity. Qed.
Lemma clipbetween_ok : opening_ok clipbetween_open = true.
Proof. reflexivity. Qed.
Lemma endclipbetween_ok : opening_ok endclipbetween_open = true.
Proof. reflexivity. Qed.

Lemma occurs_opening (o pre m x : jsstring) :
  tag o m -> occurs o (pre ++ m ++ x) = true.
Proof.
  intros [ws [_ ->]]. apply occurs_iff.
  exists pre, (ws ++ js "-->" ++ x). rewrite <- !app_assoc. reflexivity.
Qed.

Lemma has_tag_false_intro (o s : jsstring) :
  (forall i, tag_match o (drop i s) = None) -> has_tag o s = false.
Proof.
  induction s as [|c s IH]; intros H; simpl.
  - pose proof (H 0) as H0. simpl in H0. rewrite H0. reflexivity.
  - pose proof (H 0) as H0. simpl in H0. rewrite H0.
    rewrite IH; [reflexivity|]. intros i. apply (H (S i)).
Qed.

(** No marker starts in [a ++ m ++ b] when none starts in [a], none in [b],
    none at [m], and [m] has its only [<] in front. *)
Lemma has_tag_concat (o a m tl b : jsstring) :
  opening_ok o = true -> m = 60%N :: tl -> ~ In 60%N tl ->
  has_tag o a = false -> tag_match o (m ++ b) = None -> has_tag o b = false ->
  has_tag o (a ++ m ++ b) = false.
Proof.
  intros Ho Hm Htl Ha Hmb Hb. apply has_tag_false_intro. intros i.
  destruct (lt_dec i (length a)) as [Hlt|Hge].
  - rewrite Hm. simpl. apply no_tag_in_prefix; assumption.
  - rewrite drop_app_ge by lia.
    destruct (decide (i - length a = 0)) as [->|Hne]; [exact Hmb|].
    destruct (lt_dec (i - length a) (length m)) as [Hin|Hout].
    + apply (no_tag_inside o m tl b); try assumption. lia.
    + rewrite drop_app_ge by lia. apply has_tag_false_drop, Hb.
Qed.

Lemma clipbefore_not_at_clipafter (rest : jsstring) :
  tag_match clipbefore_open (clipafter_open ++ rest) = None.
Proof. reflexivity. Qed.

Lemma clipbetween_not_at_end (ws rest : jsstring) :
  tag_match clipbetween_open (endclipbetween_open ++ ws ++ rest) = None.
Proof. reflexivity. Qed.

(** The text between the first [ClipBefore] marker and the [<!--#clipafter]
    that follows it, when no further [ClipBefore] marker lies between. *)
Lemma clip_before_after_interior (pre cb mid rest : jsstring) :
  tag clipbefore_open cb ->
  has_tag clipbefore_open pre = false ->
  has_tag clipbefore_open mid = false ->
  occurs clipafter_open mid = false ->
  clip_before_after (pre ++ cb ++ mid ++ clipafter_open ++ rest) = Ok mid.
Proof.
  intros Hcb Hpre Hmid Hafter. unfold clip_before_after.
  rewrite (occurs_opening _ pre cb _ Hcb).
  rewrite (split_at_tag _ pre cb _ clipbefore_ok Hpre Hcb). cbn [drop].
  destruct (split (tag_match clipbefore_open) rest) as [|h' t'] eqn:Hrest.
  { destruct (split_not_nil _ _ Hrest). }
  destruct (opening_ok_inv _ clipafter_ok) as [tl [Hshape Htl]].
  assert (split (tag_match clipbefore_open) (clipafter_open ++ rest)
          = (clipafter_open ++ h') :: t') as Hca.
  { apply split_prefix; [|exact Hrest]. intros i Hi.
    destruct i as [|i]; [apply clipbefore_not_at_clipafter|].
    apply (no_tag_inside _ clipafter_open tl rest);
      [exact clipbefore_ok | exact Hshape | exact Htl | lia | exact Hi]. }
  assert (split (tag_match clipbefore_open) (mid ++ clipafter_open ++ rest)
          = (mid ++ clipafter_open ++ h') :: t') as Hx.
  { apply split_prefix; [|exact Hca]. intros i Hi. rewrite Hshape. simpl.
    apply no_tag_in_prefix; [exact clipbefore_ok | exact Hmid | exact Hi]. }
  rewrite Hx. cbn [drop lookup list_lookup].
  rewrite (split_at_lit _ mid h' clipafter_ok Hafter). reflexivity.
Qed.

(** C2 (amended). When the content holds a [ClipBefore] marker followed by
    [<!--#clipafter], and the text between the first such marker and that
    [<!--#clipafter] holds no further [ClipBefore] marker and no
    [<!--#clipbetween], clip processing stores exactly that text. *)
Theorem clip_before_after_keeps_interior (f : File) (pre cb mid rest : jsstring) :
  content f = pre ++ cb ++ mid ++ clipafter_open ++ rest ->
  tag clipbefore_open cb ->
  has_tag clipbefore_open pre = false ->
  has_tag clipbefore_open mid = false ->
  occurs clipafter_open mid = false ->
  occurs clipbetween_open mid = false ->
  processClip f = Ok (set_content f mid).
Proof.
  intros Hc Hcb Hpre Hmid Hafter Hbetween. unfold processClip.
  rewrite Hc, (clip_before_after_interior pre cb mid rest Hcb Hpre Hmid Hafter).
  unfold clip_between. rewrite Hbetween. reflexivity.
Qed.

Lemma clip_before_after_keeps_interior_witness :
  processClip (fragment (js "/src/-card.html")
                 (js "<html><!--#clipbefore --><p>card</p><!--#clipafter --></html>"))
  = Ok (set_content
          (fragment (js "/src/-card.html")
             (js "<html><!--#clipbefore --><p>card</p><!--#clipafter --></html>"))
          (js "<p>card</p>")).
Proof.
  apply (clip_before_after_keeps_interior _ (js "<html>") (js "<!--#clipbefore -->")
           (js "<p>card</p>") (js " --></html>")).
  - reflexivity.
  - exists (js " "). split; reflexivity.
  - reflexivity.
  - reflexivity.
  - reflexivity.
  - reflexivity.
Defined.

(** C2 as stated fails: a [ClipBetween] pair inside the bracketed span is
    excised afterwards, so what is stored is not the whole interior. *)
Lemma clip_before_after_interior_counterexample :
  content (fragment (js "/src/-card.html")
    (js "x<!--#clipbefore -->a<!--#clipbetween -->b<!--#endclipbetween -->c<!--#clipafter -->y"))
  = js "x" ++ js "<!--#clipbefore -->"
      ++ js "a<!--#clipbetween -->b<!--#endclipbetween -->c"
      ++ js "<!--#clipafter -->" ++ js "y"
  /\ processClip (fragment (js "/src/-card.html")
       (js "x<!--#clipbefore -->a<!--#clipbetween -->b<!--#endclipbetween -->c<!--#clipafter -->y"))
     = Ok (set_content (fragment (js "/src/-card.html")
       (js "x<!--#clipbefore -->a<!--#clipbetween -->b<!--#endclipbetween -->c<!--#clipafter -->y"))
          (js "ac"))
  /\ js "ac" <> js "a<!--#clipbetween -->b<!--#endclipbetween -->c".
Proof. split; [|split]; [vm_compute; reflexivity .. | discriminate]. Qed.

(** A second [ClipBefore] marker inside the span ends the stored text too. *)
Example clip_before_twice :
  clip_before_after (js "x<!--#clipbefore -->a<!--#clipbefore -->b<!--#clipafter -->y")
  = Ok (js "a").
Proof. vm_compute. reflexivity. Qed.

(** The text before the first [ClipBetween] marker and the text after the
    [EndClipBetween] marker that follows it, when the content has no other
    marker of either kind. *)
Lemma clip_between_outside (pre cbw mid ecb post : jsstring) :
  tag clipbetween_open cbw -> tag endclipbetween_open ecb ->
  has_tag clipbetween_open pre = false ->
  has_tag clipbetween_open mid = false ->
  has_tag clipbetween_open post = false ->
  has_tag endclipbetween_open mid = false ->
  has_tag endclipbetween_open post = false ->
  clip_between (pre ++ cbw ++ mid ++ ecb ++ post) = Ok (pre ++ post).
Proof.
  intros Hcbw Hecb Hpre Hmid Hpost Hemid Hepost. unfold clip_between.
  rewrite (occurs_opening _ pre cbw _ Hcbw).
  cbv zeta.
  rewrite (split_at_tag _ pre cbw _ clipbetween_ok Hpre Hcbw).
  destruct (tag_shape _ ecb endclipbetween_ok Hecb) as [tl [Hshape Htl]].
  assert (has_tag clipbetween_open (mid ++ ecb ++ post) = false) as Hfree.
  { apply (has_tag_concat _ mid ecb tl post); try assumption.
    - exact clipbetween_ok.
    - destruct Hecb as [ws [_ ->]]. rewrite <- !app_assoc.
      apply clipbetween_not_at_end. }
  rewrite (split_tag_free _ _ Hfree). cbn [lookup list_lookup].
  rewrite (split_at_tag _ mid ecb _ endclipbetween_ok Hemid Hecb).
  rewrite (split_tag_free _ _ Hepost). reflexivity.
Qed.

(** C3 (amended). When the content holds a [ClipBetween] marker followed by
    an [EndClipBetween] marker, no [<!--#clipbefore], and no further marker
    of either kind, clip processing removes the two markers and what lies
    between them, and keeps all the text before and all the text after. *)
Theorem clip_between_removes_interior (f : File) (pre cbw mid ecb post : jsstring) :
  content f = pre ++ cbw ++ mid ++ ecb ++ post ->
  tag clipbetween_open cbw ->
  tag endclipbetween_open ecb ->
  occurs clipbefore_open (content f) = false ->
  has_tag clipbetween_open pre = false ->
  has_tag clipbetween_open mid = false ->
  has_tag clipbetween_open post = false ->
  has_tag endclipbetween_open mid = false ->
  has_tag endclipbetween_open post = false ->
  processClip f = Ok (set_content f (pre ++ post)).
Proof.
  intros Hc Hcbw Hecb Hno Hpre Hmid Hpost Hemid Hepost.
  unfold processClip, clip_before_after. rewrite Hno. rewrite Hc.
  rewrite (clip_between_outside pre cbw mid ecb post); trivial.
Qed.

Lemma clip_between_removes_interior_witness :
  processClip (fragment (js "/src/-card.html")
                 (js "<p>card</p><!--#clipbetween --><p>preview only</p><!--#endclipbetween --><hr>"))
  = Ok (set_content
          (fragment (js "/src/-card.html")
             (js "<p>card</p><!--#clipbetween --><p>preview only</p><!--#endclipbetween --><hr>"))
          (js "<p>card</p>" ++ js "<hr>")).
Proof.
  apply (clip_between_removes_interior _ (js "<p>card</p>") (js "<!--#clipbetween -->")
           (js "<p>preview only</p>") (js "<!--#endclipbetween -->") (js "<hr>")).
  - reflexivity.
  - exists (js " "). split; reflexivity.
  - exists (js " "). split; reflexivity.
  - reflexivity.
  - reflexivity.
  - reflexivity.
  - reflexivity.
  - reflexivity.
  - reflexivity.
Defined.

(** C3 as stated fails: with a second pair after the first, the text that
    follows the first [EndClipBetween] marker is not all kept; only the part
    up to the second [ClipBetween] marker is. *)
Lemma clip_between_keeps_rest_counterexample :
  content (fragment (js "/src/-card.html")
    (js "a<!--#clipbetween -->b<!--#endclipbetween -->c<!--#clipbetween -->d<!--#endclipbetween -->e"))
  = js "a" ++ js "<!--#clipbetween -->" ++ js "b" ++ js "<!--#endclipbetween -->"
      ++ js "c<!--#clipbetween -->d<!--#endclipbetween -->e"
  /\ processClip (fragment (js "/src/-card.html")
       (js "a<!--#clipbetween -->b<!--#endclipbetween -->c<!--#clipbetween -->d<!--#endclipbetween -->e"))
     = Ok (set_content (fragment (js "/src/-card.html")
       (js "a<!--#clipbetween -->b<!--#endclipbetween -->c<!--#clipbetween -->d<!--#endclipbetween -->e"))
          (js "ac"))
  /\ js "ac" <> js "a" ++ js "c<!--#clipbetween -->d<!--#endclipbetween -->e".
Proof. split; [|split]; [vm_compute; reflexivity .. | discriminate]. Qed.

(** A bracketing clip in the same content runs first, so the text before the
    [ClipBetween] marker is not all kept either. *)
Example clip_between_after_bracketing :
  processClip (fragment (js "/src/-card.html")
    (js "x<!--#clipbefore -->a<!--#clipbetween -->b<!--#endclipbetween -->c"))
  = Ok (set_content (fragment (js "/src/-card.html")
    (js "x<!--#clipbefore -->a<!--#clipbetween -->b<!--#endclipbetween -->c"))
       (js "ac")).
Proof. vm_compute. reflexivity. Qed.

(** C4 (amended). When the first [ClipBefore] marker of the content is
    followed by no [<!--#clipafter] (and by no further [ClipBefore] marker
    and no [<!--#clipbetween]), clip processing stores the text that follows
    the marker: the content is clipped at the opening marker alone.
    [processClip] returns the file and nothing else; there is no condition
    it could report. *)
Theorem clip_before_without_after (f : File) (pre cb post : jsstring) :
  content f = pre ++ cb ++ post ->
  tag clipbefore_open cb ->
  has_tag clipbefore_open pre = false ->
  has_tag clipbefore_open post = false ->
  occurs clipafter_open post = false ->
  occurs clipbetween_open post = false ->
  processClip f = Ok (set_content f post).
Proof.
  intros Hc Hcb Hpre Hpost Hafter Hbetween.
  unfold processClip, clip_before_after. rewrite Hc.
  rewrite (occurs_opening _ pre cb _ Hcb).
  rewrite (split_at_tag _ pre cb _ clipbefore_ok Hpre Hcb).
  rewrite (split_tag_free _ _ Hpost). cbn [drop lookup list_lookup].
  rewrite (split_lit_free _ _ Hafter). cbn [take lookup list_lookup].
  unfold clip_between. rewrite Hbetween. reflexivity.
Qed.

Lemma clip_before_without_after_witness :
  processClip (fragment (js "/src/-card.html") (js "<html><!--#clipbefore --><p>card</p>"))
  = Ok (set_content (fragment (js "/src/-card.html") (js "<html><!--#clipbefore --><p>card</p>"))
          (js "<p>card</p>")).
Proof.
  apply (clip_before_without_after _ (js "<html>") (js "<!--#clipbefore -->") (js "<p>card</p>")).
  - reflexivity.
  - exists (js " "). split; reflexivity.
  - reflexivity.
  - reflexivity.
  - reflexivity.
  - reflexivity.
Defined.

(** C4 as stated fails: a [ClipBefore] marker without [ClipAfter] does not
    leave the content as it was. *)
Lemma clip_malformed_unclipped_counterexample :
  has_tag clipbefore_open
    (content (fragment (js "/src/-card.html") (js "<html><!--#clipbefore --><p>card</p>"))) = true
  /\ occurs clipafter_open
    (content (fragment (js "/src/-card.html") (js "<html><!--#clipbefore --><p>card</p>"))) = false
  /\ processClip (fragment (js "/src/-card.html") (js "<html><!--#clipbefore --><p>card</p>"))
     = Ok (set_content (fragment (js "/src/-card.html") (js "<html><!--#clipbefore --><p>card</p>"))
             (js "<p>card</p>"))
  /\ js "<p>card</p>"
     <> content (fragment (js "/src/-card.html") (js "<html><!--#clipbefore --><p>card</p>")).
Proof. split; [|split; [|split]]; [vm_compute; reflexivity .. | discriminate]. Qed.

(** What the other malformed shapes do: a [ClipBetween] marker without its
    [EndClipBetween] appends the text [undefined], and an opening that is
    no complete marker throws. *)
Example clip_between_without_end :
  clip_between (js "a<!--#clipbetween -->b") = Ok (js "aundefined").
Proof. vm_compute. reflexivity. Qed.

Example clip_before_incomplete :
  clip_before_after (js "a<!--#clipbefore b") = Throw TypeError.
Proof. vm_compute. reflexivity. Qed.

(** ** Documents without directives *)

Lemma starts_with_length (p s : jsstring) :
  starts_with p s = true -> length p <= length s.
Proof.
  intros H. apply starts_with_iff in H as [r ->]. rewrite length_app. lia.
Qed.

Lemma starts_with_app_long (p s b : jsstring) :
  length p <= length s -> starts_with p (s ++ b) = starts_with p s.
Proof.
  revert s. induction p as [|a p IH]; intros s Hlen; simpl; [reflexivity|].
  destruct s as [|c s]; simpl in *; [lia|].
  rewrite IH by lia. reflexivity.
Qed.

Lemma find_length (p s : jsstring) (j : nat) :
  Scanner.find p s = Some j -> j + length p <= length s.
Proof.
  revert j. induction s as [|c s IH]; intros j; simpl.
  - destruct (starts_with p []) eqn:E; [|discriminate].
    intros [= <-]. apply starts_with_length in E. simpl in *. lia.
  - destruct (starts_with p (c :: s)) eqn:E.
    + intros [= <-]. apply starts_with_length in E. simpl in *. lia.
    + destruct (Scanner.find p s) as [k|]; [|discriminate].
      intros [= <-]. specialize (IH k eq_refl). simpl. lia.
Qed.

Lemma find_app (p s b : jsstring) (j : nat) :
  Scanner.find p s = Some j -> Scanner.find p (s ++ b) = Some j.
Proof.
  revert j. induction s as [|c s IH]; intros j H.
  - simpl in H. destruct (starts_with p []) eqn:E; [|discriminate].
    injection H as <-. destruct p; [|discriminate].
    destruct b; reflexivity.
  - pose proof (find_length _ _ _ H) as Hlen. simpl in H.
    change ((c :: s) ++ b) with (c :: s ++ b). cbn [Scanner.find].
    change (c :: s ++ b) with ((c :: s) ++ b).
    destruct (starts_with p (c :: s)) eqn:E.
    + injection H as <-. rewrite starts_with_app_long by lia. rewrite E. reflexivity.
    + destruct (Scanner.find p s) as [k|] eqn:Hk; [|discriminate].
      injection H as <-. rewrite starts_with_app_long by (simpl in *; lia).
      rewrite E. rewrite (IH k eq_refl). reflexivity.
Qed.

(** A tag found in a text is found alike when more text follows. *)
Lemma tag_at_app (cfg : Config) (u b : jsstring) :
  Scanner.tag_at cfg (u ++ b) = Scanner.NoTag ->
  Scanner.tag_at cfg u = Scanner.NoTag.
Proof.
  unfold Scanner.tag_at.
  destruct (starts_with Scanner.marker u) eqn:Hm; [|reflexivity].
  pose proof (starts_with_length _ _ Hm) as Hlen.
  rewrite starts_with_app_long by exact Hlen. rewrite Hm.
  rewrite drop_app_le by exact Hlen.
  destruct (Scanner.find Scanner.closing (drop (length Scanner.marker) u)) as [j|] eqn:Hj;
    [|reflexivity].
  rewrite (find_app _ _ b j Hj).
  pose proof (find_length _ _ _ Hj) as Hj'.
  rewrite take_app_le by lia. trivial.
Qed.

Lemma scan_go_nil (cfg : Config) (pos : nat) (s : jsstring) :
  Scanner.scan_go cfg pos 0 s = ([], []) <-> tag_free cfg s.
Proof.
  revert pos. induction s as [|c s IH]; intros pos.
  - split; [|reflexivity]. intros _ i. rewrite drop_nil. reflexivity.
  - cbn [Scanner.scan_go]. split.
    + intros H i.
      destruct (Scanner.tag_at cfg (c :: s)) as [|len|kd attrs len] eqn:E.
      * destruct i; [exact E|]. apply (IH (S pos)). exact H.
      * destruct (Scanner.scan_go cfg (S pos) (len - 1) s). discriminate.
      * destruct (Scanner.scan_go cfg (S pos) (len - 1) s). discriminate.
    + intros H. pose proof (H 0) as H0. cbn [drop] in H0. rewrite H0.
      apply IH. intros i. apply (H (S i)).
Qed.

Lemma tag_free_infix (cfg : Config) (a s b : jsstring) :
  tag_free cfg (a ++ s ++ b) -> tag_free cfg s.
Proof.
  intros H i. destruct (le_lt_dec i (length s)) as [Hle|Hgt].
  - apply (tag_at_app cfg _ b). rewrite <- drop_app_le by exact Hle.
    specialize (H (length a + i)).
    rewrite drop_app_ge in H by lia.
    replace (length a + i - length a) with i in H by lia. exact H.
  - rewrite drop_ge by lia. reflexivity.
Qed.

Lemma trim_infix (s : jsstring) : exists a b, s = a ++ trim s ++ b.
Proof.
  exists (take_ws s), (rev (take_ws (rev (skip_ws s)))). unfold trim.
  rewrite <- rev_app_distr, <- take_skip_ws, rev_involutive.
  apply take_skip_ws.
Qed.

Lemma plan_no_tags (cfg : Config) (text : jsstring) :
  Scanner.scan cfg text = ([], []) -> Engine.plan cfg text = ([], []).
Proof. intros H. unfold Engine.plan. rewrite H. reflexivity. Qed.

(** A text in which the scanner finds no tag is stable at once: it comes
    back as it is, with no condition and no pass. *)
Lemma resolve_no_tags (fuel : nat) (env : Engine.Env) (host text : jsstring) (used : nat) :
  Scanner.scan (Engine.config env) text = ([], []) ->
  Engine.resolve (S fuel) env host text used = Some (text, [], used).
Proof.
  intros H. cbn [Engine.resolve]. rewrite (plan_no_tags _ _ H). reflexivity.
Qed.

(** C1 (amended). For every input text in which the scanner finds no
    directive tag, [processContent], with any options, returns the input
    with its leading and trailing white space removed ([content.trim()] of
    [createFileObject]) and otherwise unchanged. *)
Theorem processContent_no_directives (fuel : nat) (pf : Platform)
    (text : jsstring) (ctx : Context) (w : World) :
  Scanner.scan (config_of (default Options.empty (ctx_options ctx))) text = ([], []) ->
  processContent (S fuel) pf text ctx w
  = Some (Ok (trim text), setOptions (default Options.empty (ctx_options ctx)) w).
Proof.
  intros H. unfold processContent, processFile.
  rewrite resolve_no_tags; [reflexivity|].
  apply scan_go_nil. apply scan_go_nil in H.
  destruct (trim_infix text) as [a [b Hab]].
  apply (tag_free_infix _ a _ b). simpl. rewrite <- Hab. exact H.
Qed.

Lemma processContent_no_directives_witness :
  processContent 1 (memory_platform (fun _ => Unreadable (js "ENOENT")) [])
    (js "<p>plain text</p>") (mkContext None None) empty_world
  = Some (Ok (trim (js "<p>plain text</p>")), setOptions Options.empty empty_world).
Proof.
  apply (processContent_no_directives 0 _ (js "<p>plain text</p>") (mkContext None None)).
  vm_compute. reflexivity.
Defined.

(** C1 as stated fails: white space around the text is not returned. *)
Lemma processContent_unchanged_counterexample :
  Scanner.scan (config_of Options.empty) (js " <p>plain text</p> ") = ([], [])
  /\ processContent 1 (memory_platform (fun _ => Unreadable (js "ENOENT")) [])
       (js " <p>plain text</p> ") (mkContext None None) empty_world
     = Some (Ok (js "<p>plain text</p>"), setOptions Options.empty empty_world)
  /\ js "<p>plain text</p>" <> js " <p>plain text</p> ".
Proof. split; [|split]; [vm_compute; reflexivity .. | discriminate]. Qed.

(** ** The iteration cap *)

Section Cap.

Variable env : Engine.Env.
Variable N : nat.
Hypothesis Hcap : iterationLimit (Engine.config env) = Some N.

Lemma dispatch_bounded self u0 host a u :
  bounded_from N self u0 -> u0 <= u -> u <= N ->
  exists r cs u', Engine.dispatch self env host a u = Some (r, cs, u')
                  /\ u <= u' /\ u' <= N.
Proof using Type.
  intros Hself H0 HN. destruct a as [d p | d p dflt | d e | d close p body]; simpl.
  - destruct (Engine.insertFragment env _) as [c|].
    + apply Hself; assumption.
    + eauto 7.
  - eauto 7.
  - destruct (Engine.evaluate env e); eauto 7.
  - destruct (Engine.wrapFragment env _) as [shell|]; [|eauto 7].
    destruct (Engine.middles _ shell); eauto 7.
Qed.

Lemma dispatch_all_bounded self u0 host acts u :
  bounded_from N self u0 -> u0 <= u -> u <= N ->
  exists subs cs u', Engine.dispatch_all self env host acts u = Some (subs, cs, u')
                     /\ u <= u' /\ u' <= N.
Proof using Type.
  intros Hself. revert u. induction acts as [|a acts IH]; intros u H0 HN; simpl.
  - eauto 7.
  - destruct (dispatch_bounded self u0 host a u Hself H0 HN)
      as [r [cs [u1 [-> [Hle1 HN1]]]]].
    destruct (IH u1 ltac:(lia) HN1) as [subs [cs' [u2 [-> [Hle2 HN2]]]]].
    do 3 eexists. split; [reflexivity | lia].
Qed.

(** With a cap of [N], enough fuel for the passes that remain is enough
    for the resolution to end, within the cap. *)
Lemma resolve_bounded fuel :
  bounded_from N (Engine.resolve fuel env) (S N - fuel).
Proof using Hcap.
  induction fuel as [|fuel IH]; intros host text u H0 HN; [lia|].
  cbn [Engine.resolve].
  destruct (Engine.plan (Engine.config env) text) as [[|a acts] invalid].
  - eauto 7.
  - rewrite Hcap. cbn [Engine.cap_reached].
    destruct (N <=? u) eqn:E; [eauto 7|].
    apply Nat.leb_gt in E.
    destruct (dispatch_all_bounded _ _ host (a :: acts) (S u) IH ltac:(lia) ltac:(lia))
      as [subs [cs [u1 [-> [Hle1 HN1]]]]].
    destruct (IH host (Engine.splice text subs) u1 ltac:(lia) HN1)
      as [t [cs' [u2 [-> [Hle2 HN2]]]]].
    do 3 eexists. split; [reflexivity | lia].
Qed.

Lemma unresolved_app_l cs cs' : unresolved cs -> unresolved (cs ++ cs').
Proof using Type. intros [d H]. exists d. apply in_or_app. left. exact H. Qed.

Lemma unresolved_app_r cs cs' : unresolved cs' -> unresolved (cs ++ cs').
Proof using Type. intros [d H]. exists d. apply in_or_app. right. exact H. Qed.

(** A pass that holds an insert of a document on which the resolver
    reports an [UnresolvedDirective] reports one too. *)
Lemma dispatch_all_exceeds self u0 host acts u d p c :
  bounded_from N self u0 ->
  Engine.insertFragment env (Engine.resolvePath env host p) = Some c ->
  exceeds_from N self (Engine.resolvePath env host p) c u0 ->
  In (Engine.DoInsert d p) acts ->
  u0 <= u -> u <= N ->
  exists subs cs u', Engine.dispatch_all self env host acts u = Some (subs, cs, u')
                     /\ u <= u' /\ u' <= N /\ unresolved cs.
Proof using Type.
  intros Hself Hfrag Hexc. revert u.
  induction acts as [|a acts IH]; intros u Hin H0 HN; [destruct Hin|].
  destruct Hin as [-> | Hin].
  - cbn [Engine.dispatch_all Engine.dispatch]. rewrite Hfrag.
    destruct (Hexc u H0 HN) as [t [cs [u1 [Hrun [HN1 Hun]]]]].
    destruct (Hself (Engine.resolvePath env host p) c u H0 HN)
      as [t' [cs' [u1' [Hrun' [Hle1 _]]]]].
    rewrite Hrun in Hrun'. injection Hrun' as <- <- <-. rewrite Hrun.
    destruct (dispatch_all_bounded self u0 host acts u1 Hself ltac:(lia) HN1)
      as [subs [cs2 [u2 [-> [Hle2 HN2]]]]].
    do 3 eexists. split; [reflexivity|].
    repeat split; try lia. apply unresolved_app_l, Hun.
  - cbn [Engine.dispatch_all].
    destruct (dispatch_bounded self u0 host a u Hself H0 HN)
      as [r [cs [u1 [-> [Hle1 HN1]]]]].
    destruct (IH u1 Hin ltac:(lia) HN1) as [subs [cs' [u2 [-> [Hle2 [HN2 Hun]]]]]].
    do 3 eexists. split; [reflexivity|].
    repeat split; try lia. apply unresolved_app_r, Hun.
Qed.

Variables pA cA pB cB : jsstring.
Hypothesis HA : Engine.insertFragment env pA = Some cA.
Hypothesis HB : Engine.insertFragment env pB = Some cB.
Hypothesis HAB : inserts env pA cA pB.
Hypothesis HBA : inserts env pB cB pA.

Lemma resolve_exceeds_step fuel p c q c' :
  Engine.insertFragment env q = Some c' ->
  inserts env p c q ->
  exceeds_from N (Engine.resolve fuel env) q c' (S N - fuel) ->
  exceeds_from N (Engine.resolve (S fuel) env) p c (S N - S fuel).
Proof using Hcap.
  intros Hq [d [pth [Hin Hres]]] IH u H0 HN.
  cbn [Engine.resolve].
  destruct (Engine.plan (Engine.config env) c) as [[|a acts] invalid];
    [destruct Hin|]. simpl in Hin.
  rewrite Hcap. cbn [Engine.cap_reached].
  destruct (N <=? u) eqn:E.
  - do 3 eexists. split; [reflexivity|]. split; [exact HN|].
    apply unresolved_app_r. exists p. left. reflexivity.
  - apply Nat.leb_gt in E. subst q.
    destruct (dispatch_all_exceeds _ (S N - fuel) p (a :: acts) (S u) d pth c'
                (resolve_bounded fuel) Hq IH Hin ltac:(lia) ltac:(lia))
      as [subs [cs [u1 [-> [Hle1 [HN1 Hun]]]]]].
    destruct (resolve_bounded fuel p (Engine.splice c subs) u1 ltac:(lia) HN1)
      as [t [cs' [u2 [-> [Hle2 HN2]]]]].
    do 3 eexists. split; [reflexivity|]. split; [exact HN2|].
    apply unresolved_app_r, unresolved_app_l, Hun.
Qed.

Lemma resolve_exceeds_cycle fuel :
  exceeds_from N (Engine.resolve fuel env) pA cA (S N - fuel)
  /\ exceeds_from N (Engine.resolve fuel env) pB cB (S N - fuel).
Proof using Hcap HA HB HAB HBA.
  induction fuel as [|fuel [IHA IHB]].
  - split; intros u H0 HN; lia.
  - split.
    + apply (resolve_exceeds_step fuel pA cA pB cB HB HAB IHB).
    + apply (resolve_exceeds_step fuel pB cB pA cA HA HBA IHA).
Qed.

End Cap.

(** With a cap of [N] every resolution ends, after at most [N] passes. *)
Lemma resolve_ends_within_cap (env : Engine.Env) (N fuel : nat) (host text : jsstring) :
  iterationLimit (Engine.config env) = Some N -> N < fuel ->
  exists t conds passes,
    Engine.resolve fuel env host text 0 = Some (t, conds, passes) /\ passes <= N.
Proof.
  intros Hcap Hfuel.
  destruct (resolve_bounded env N Hcap fuel host text 0 ltac:(lia) ltac:(lia))
    as [t [cs [u [H [_ HN]]]]].
  eauto.
Qed.

(** C6. For fragments [A] and [B] where [A] inserts [B] and [B] inserts [A],
    resolution with [iterationLimit = N] ends (any fuel above [N] is
    enough), performs at most [N] passes, and returns a text together with
    an [UnresolvedDirective] condition. *)
Theorem cyclic_insert_reaches_cap (env : Engine.Env) (N fuel : nat)
    (pA cA pB cB : jsstring) :
  iterationLimit (Engine.config env) = Some N ->
  Engine.insertFragment env pA = Some cA ->
  Engine.insertFragment env pB = Some cB ->
  inserts env pA cA pB ->
  inserts env pB cB pA ->
  N < fuel ->
  exists text conds passes,
    Engine.resolve fuel env pA cA 0 = Some (text, conds, passes)
    /\ passes <= N
    /\ unresolved conds.
Proof.
  intros Hcap HA HB HAB HBA Hfuel.
  destruct (resolve_exceeds_cycle env N Hcap pA cA pB cB HA HB HAB HBA fuel) as [H _].
  apply H; lia.
Qed.

Lemma inserts_dec_sound (env : Engine.Env) (hostPath hostText targetPath : jsstring) :
  inserts_dec env hostPath hostText targetPath = true ->
  inserts env hostPath hostText targetPath.
Proof.
  unfold inserts_dec, inserts. rewrite existsb_exists.
  intros [a [Hin Ha]]. destruct a as [d p| | |]; try discriminate.
  exists d, p. split; [exact Hin | apply jsstring_eqb_eq, Ha].
Qed.

Lemma cyclic_insert_reaches_cap_witness :
  exists text conds passes,
    Engine.resolve 3 (fragments_env (Some 2) cycle) (js "/src/-a.html")
        text_a 0 = Some (text, conds, passes)
    /\ passes <= 2
    /\ unresolved conds.
Proof.
  apply (cyclic_insert_reaches_cap (fragments_env (Some 2) cycle) 2 3
           (js "/src/-a.html") text_a
           (js "/src/-b.html") text_b).
  - reflexivity.
  - vm_compute. reflexivity.
  - vm_compute. reflexivity.
  - apply inserts_dec_sound. vm_compute. reflexivity.
  - apply inserts_dec_sound. vm_compute. reflexivity.
  - lia.
Defined.

(** The cycle under a cap of two: two passes, then the text as it stands. *)
Example cycle_cap_two :
  Engine.resolve 3 (fragments_env (Some 2) cycle) (js "/src/-a.html")
    text_a 0
  = Some (js "A[B(" ++ text_a ++ js ")]",
          [UnresolvedDirective (js "/src/-a.html");
           UnresolvedDirective (js "/src/-b.html");
           UnresolvedDirective (js "/src/-a.html")], 2).
Proof. vm_compute. reflexivity. Qed.

(** Without a cap the cycle exhausts any fuel tried. *)
Example cycle_no_cap :
  Engine.resolve 40 (fragments_env None cycle) (js "/src/-a.html")
    text_a 0 = None.
Proof. vm_compute. reflexivity. Qed.

(** Two-level transitive resolution takes two passes. *)
Example chain_two_passes :
  Engine.resolve 3 (fragments_env None chain) (js "/src/-a.html")
    text_a 0
  = Some (js "A[B(C)]", [], 2).
Proof. vm_compute. reflexivity. Qed.

(** ** Registration *)

Lemma processClip_keeps_identity (f f' : File) :
  processClip f = Ok f' -> path f' = path f /\ name f' = name f.
Proof.
  unfold processClip. destruct (clip_before_after (content f)); [|discriminate].
  destruct (clip_between a); [|discriminate].
  intros [= <-]. split; reflexivity.
Qed.

Lemma put_page_In (f : File) (pages : list File) : In f (put_page f pages).
Proof.
  induction pages as [|p rest IH]; cbn [put_page]; [left; reflexivity|].
  destruct (jsstring_eqb (path p) (path f)); [left; reflexivity | right; exact IH].
Qed.

Lemma put_page_inv (f r : File) (pages : list File) :
  In r (put_page f pages) -> r = f \/ In r pages.
Proof.
  induction pages as [|p rest IH]; cbn [put_page].
  - intros [<- | []]. left. reflexivity.
  - destruct (jsstring_eqb (path p) (path f)).
    + intros [<- | H]; [left; reflexivity | right; right; exact H].
    + intros [<- | H]; [right; left; reflexivity|].
      destruct (IH H) as [-> | H']; [left; reflexivity | right; right; exact H'].
Qed.

Lemma put_page_Forall (P : File -> Prop) (f : File) (pages : list File) :
  P f -> Forall P pages -> Forall P (put_page f pages).
Proof.
  intros Hf. induction pages as [|p rest IH]; cbn [put_page]; intros H.
  - constructor; [exact Hf | constructor].
  - inversion H as [|? ? Hp Hrest]; subst.
    destruct (jsstring_eqb (path p) (path f)).
    + constructor; [exact Hf | exact Hrest].
    + constructor; [exact Hp | exact (IH Hrest)].
Qed.

Lemma configureFiles_registers (f : File) (w : World) :
  registered (configureFiles f w) f.
Proof.
  unfold registered, configureFiles. destruct (category (name f)); simpl.
  - left. apply put_page_In.
  - right. left. exists (path f). apply lookup_insert_eq.
  - right. right. exists (path f). apply lookup_insert_eq.
Qed.

Lemma configureFiles_registered (f : File) (w : World) (r : File) :
  registered (configureFiles f w) r -> r = f \/ registered w r.
Proof.
  unfold registered, configureFiles. destruct (category (name f)); simpl.
  - intros [H | H]; [|tauto].
    apply put_page_inv in H as [H | H]; [left; exact H | tauto].
  - intros [H | [[k H] | H]]; [tauto| |tauto].
    destruct (decide (path f = k)) as [<-|Hne].
    + rewrite lookup_insert_eq in H. injection H as <-. left. reflexivity.
    + rewrite lookup_insert_ne in H by exact Hne. right. right. left. exists k. exact H.
  - intros [H | [H | [k H]]]; [tauto|tauto|].
    destruct (decide (path f = k)) as [<-|Hne].
    + rewrite lookup_insert_eq in H. injection H as <-. left. reflexivity.
    + rewrite lookup_insert_ne in H by exact Hne. right. right. right. exists k. exact H.
Qed.

(** [hashFile] clips, then categorizes: the record that enters a collection
    is the clipped one, the records already there stay as they are, and a
    clipping that throws leaves the collections alone. *)
Lemma hashFile_clips_then_categorizes (f : File) (w : World) :
  match processClip f with
  | Ok clipped =>
      hashFile f w = (Ok tt, configureFiles clipped w)
      /\ registered (hashFile f w).2 clipped
      /\ forall r, registered (hashFile f w).2 r -> r = clipped \/ registered w r
  | Throw e => hashFile f w = (Throw e, w)
  end.
Proof.
  unfold hashFile. destruct (processClip f) as [clipped|e]; [|reflexivity].
  split; [reflexivity|]. simpl. split.
  - apply configureFiles_registers.
  - apply configureFiles_registered.
Qed.

(** C5. Every record that a registration of [core.mjs] leaves in a
    collection either was there before, unchanged, or is the result of one
    application of [processClip] to the file object handed over: for one call
    of [hashFile], and for the two loops that register through it, the loop
    of [processDirectory] and the loop of [loadDependencies] (and so
    [loadDependencies] itself), where the file object is the one built from a
    file read in that loop.  The clipping happens once, inside [hashFile],
    before the record is categorized, and no record already registered is
    clipped again. *)
Theorem registration_clips_once (pf : Platform) (allFiles : list jsstring)
    (baseDir : jsstring) (o : Options.t) (w : World) :
  (forall f r, registered (hashFile f w).2 r ->
     registered w r \/ processClip f = Ok r)
  /\ (forall r, registered (hashEach pf allFiles w).2 r ->
        registered w r
        \/ exists filePath raw,
             In filePath allFiles
             /\ readFile pf filePath = Ok raw
             /\ processClip (createFileObject pf filePath raw) = Ok r)
  /\ (forall r, registered (loadEach pf allFiles w).2 r ->
        registered w r
        \/ exists filePath raw,
             In filePath allFiles
             /\ readFile pf filePath = Ok raw
             /\ processClip (createFileObject pf filePath raw) = Ok r)
  /\ (forall r, registered (loadDependencies pf baseDir o w).2 r ->
        registered w r
        \/ exists filePath raw,
             readFile pf filePath = Ok raw
             /\ processClip (createFileObject pf filePath raw) = Ok r).
Proof.
  assert (forall f w0 r, registered (hashFile f w0).2 r ->
            registered w0 r \/ processClip f = Ok r) as Hone.
  { intros f w0 r Hr.
    pose proof (hashFile_clips_then_categorizes f w0) as H.
    destruct (processClip f) as [clipped|e].
    - destruct H as [_ [_ Hold]].
      destruct (Hold r Hr) as [Heq | Hr']; [right; rewrite Heq; reflexivity | left; exact Hr'].
    - rewrite H in Hr. left. exact Hr. }
  assert (forall files w0 r, registered (loadEach pf files w0).2 r ->
            registered w0 r
            \/ exists filePath raw,
                 In filePath files
                 /\ readFile pf filePath = Ok raw
                 /\ processClip (createFileObject pf filePath raw) = Ok r) as Hload.
  { intros files. induction files as [|filePath rest IH]; intros w0 r;
      cbn [loadEach]; [tauto|]. cbv zeta.
    assert (registered (loadEach pf rest w0).2 r ->
            registered w0 r
            \/ exists q raw, In q (filePath :: rest) /\ readFile pf q = Ok raw
                             /\ processClip (createFileObject pf q raw) = Ok r) as Hskip.
    { intros Hr. apply IH in Hr as [Hr | [q [raw' [Hin H]]]]; [tauto|].
      right. exists q, raw'. split; [right; exact Hin | exact H]. }
    destruct (starts_with insert_marker (path_basename pf filePath)
              || starts_with wrap_marker (path_basename pf filePath));
      [|exact Hskip].
    destruct (readFile pf filePath) as [raw|e] eqn:Hread; [|cbn [snd]; tauto].
    pose proof (Hone (createFileObject pf filePath raw) w0) as Hstep.
    destruct (hashFile (createFileObject pf filePath raw) w0) as [[[]|e] w1];
      cbn [snd] in Hstep |- *.
    - intros Hr. apply IH in Hr as [Hr | [q [raw' [Hin H]]]].
      + apply Hstep in Hr as [Hr | Hr]; [tauto|].
        right. exists filePath, raw. split; [left; reflexivity | tauto].
      + right. exists q, raw'. split; [right; exact Hin | exact H].
    - intros Hr. apply Hstep in Hr as [Hr | Hr]; [tauto|].
      right. exists filePath, raw. split; [left; reflexivity | tauto]. }
  split; [exact (fun f r => Hone f w r)|]. split; [|split].
  - revert w. induction allFiles as [|filePath rest IH]; intros w r; cbn [hashEach].
    + tauto.
    + destruct (readFile pf filePath) as [raw|e] eqn:Hread; [|cbn [snd]; tauto].
      pose proof (Hone (createFileObject pf filePath raw) w) as Hstep.
      destruct (hashFile (createFileObject pf filePath raw) w) as [[[]|e] w1];
        cbn [snd] in Hstep |- *.
      * intros Hr. apply IH in Hr as [Hr | [q [raw' [Hin H]]]].
        -- apply Hstep in Hr as [Hr | Hr]; [tauto|].
           right. exists filePath, raw. split; [left; reflexivity | tauto].
        -- right. exists q, raw'. split; [right; exact Hin | exact H].
      * intros Hr. apply Hstep in Hr as [Hr | Hr]; [tauto|].
        right. exists filePath, raw. split; [left; reflexivity | tauto].
  - exact (Hload allFiles w).
  - intros r. unfold loadDependencies. cbv zeta.
    destruct (discoverFiles pf baseDir (readdir pf baseDir) []) as [found|e].
    + intros Hr. apply Hload in Hr as [Hr | [q [raw [_ H]]]].
      * left. exact Hr.
      * right. exists q, raw. exact H.
    + intros Hr. left. exact Hr.
Qed.

Lemma registration_clips_once_witness :
  registered (loadEach site [js "/src/parts/-nav.html"] empty_world).2
    (set_content (createFileObject site (js "/src/parts/-nav.html")
                    (js "<html><!--#clipbefore --><nav>menu</nav><!--#clipafter --></html>"))
                 (js "<nav>menu</nav>"))
  /\ (registered empty_world
        (set_content (createFileObject site (js "/src/parts/-nav.html")
                        (js "<html><!--#clipbefore --><nav>menu</nav><!--#clipafter --></html>"))
                     (js "<nav>menu</nav>"))
      \/ exists filePath raw,
           In filePath [js "/src/parts/-nav.html"]
           /\ readFile site filePath = Ok raw
           /\ processClip (createFileObject site filePath raw)
              = Ok (set_content (createFileObject site (js "/src/parts/-nav.html")
                        (js "<html><!--#clipbefore --><nav>menu</nav><!--#clipafter --></html>"))
                     (js "<nav>menu</nav>"))).
Proof.
  assert (registered (loadEach site [js "/src/parts/-nav.html"] empty_world).2
    (set_content (createFileObject site (js "/src/parts/-nav.html")
                    (js "<html><!--#clipbefore --><nav>menu</nav><!--#clipafter --></html>"))
                 (js "<nav>menu</nav>"))) as H.
  { right. left. exists (js "/src/parts/-nav.html"). vm_compute. reflexivity. }
  split; [exact H|].
  exact (proj1 (proj2 (proj2
           (registration_clips_once site [js "/src/parts/-nav.html"] (js "/src")
              Options.empty empty_world))) _ H).
Defined.

(** Clipping is not idempotent, so "once" is not "any number of times". *)
Example clip_twice_differs :
  clip_between (js "<!--#clip<!--#clipbetween -->x<!--#endclipbetween -->between -->y")
  = Ok (js "<!--#clipbetween -->y")
  /\ clip_between (js "<!--#clipbetween -->y") = Ok (js "undefined").
Proof. split; vm_compute; reflexivity. Qed.

(** ** [loadDependencies] *)

Lemma marked_category (pf : Platform) (p : jsstring) :
  marked pf p = true <-> category (path_basename pf p) <> Page.
Proof.
  unfold marked, category.
  destruct (starts_with insert_marker (path_basename pf p)),
           (starts_with wrap_marker (path_basename pf p)); cbn [orb].
  - split; [intros _; discriminate | reflexivity].
  - split; [intros _; discriminate | reflexivity].
  - split; [intros _; discriminate | reflexivity].
  - split; [discriminate | intros H; destruct (H eq_refl)].
Qed.

(** Registering a marked file stores it as a fragment under its path and
    leaves [pageFiles] alone. *)
Lemma hashFile_marked (pf : Platform) (p raw : jsstring) (w w1 : World) :
  hashFile (createFileObject pf p raw) w = (Ok tt, w1) ->
  marked pf p = true ->
  stored_as_fragment pf w1 p /\ pageFiles w1 = pageFiles w.
Proof.
  unfold hashFile. intros H Hm.
  destruct (processClip (createFileObject pf p raw)) as [f'|] eqn:Hclip; [|discriminate].
  injection H as <-. apply processClip_keeps_identity in Hclip as [Hpath Hname].
  simpl in Hpath, Hname. apply marked_category in Hm.
  unfold stored_as_fragment, configureFiles. rewrite Hname.
  destruct (category (path_basename pf p)); simpl.
  - congruence.
  - split; [|reflexivity]. exists f'. rewrite Hpath, lookup_insert_eq. tauto.
  - split; [|reflexivity]. exists f'. rewrite Hpath, lookup_insert_eq. tauto.
Qed.

(** A later registration keeps a stored fragment stored. *)
Lemma hashFile_keeps_stored (pf : Platform) (q raw p : jsstring) (w w1 : World) :
  hashFile (createFileObject pf q raw) w = (Ok tt, w1) ->
  stored_as_fragment pf w p -> stored_as_fragment pf w1 p.
Proof.
  unfold hashFile. intros H.
  destruct (processClip (createFileObject pf q raw)) as [f'|] eqn:Hclip; [|discriminate].
  injection H as <-. apply processClip_keeps_identity in Hclip as [Hpath Hname].
  simpl in Hpath, Hname.
  unfold stored_as_fragment, configureFiles. rewrite Hname.
  destruct (decide (q = p)) as [->|Hne].
  - destruct (category (path_basename pf p)); simpl; try tauto.
    + intros _. exists f'. rewrite Hpath, lookup_insert_eq. tauto.
    + intros _. exists f'. rewrite Hpath, lookup_insert_eq. tauto.
  - destruct (category (path_basename pf p)), (category (path_basename pf q));
      simpl; try tauto; rewrite Hpath, lookup_insert_ne by exact Hne; tauto.
Qed.

Lemma loadEach_keeps_stored (pf : Platform) (allFiles : list jsstring) (p : jsstring) (w : World) :
  (loadEach pf allFiles w).1 = Ok tt ->
  stored_as_fragment pf w p -> stored_as_fragment pf (loadEach pf allFiles w).2 p.
Proof.
  revert w. induction allFiles as [|q rest IH]; intros w; cbn [loadEach fst snd];
    [tauto|].
  destruct (marked pf q) eqn:Hm; unfold marked in Hm; rewrite Hm; [|apply IH].
  destruct (readFile pf q) as [raw|e]; [|discriminate].
  destruct (hashFile (createFileObject pf q raw) w) as [[[]|e] w1] eqn:Hhash;
    [|discriminate].
  intros Hres Hp. apply IH; [exact Hres|].
  exact (hashFile_keeps_stored pf q raw p w w1 Hhash Hp).
Qed.

Lemma loadEach_spec (pf : Platform) (allFiles : list jsstring) (w : World) :
  pageFiles (loadEach pf allFiles w).2 = pageFiles w
  /\ (forall r, registered (loadEach pf allFiles w).2 r ->
        registered w r \/ (In (path r) allFiles /\ marked pf (path r) = true))
  /\ ((loadEach pf allFiles w).1 = Ok tt ->
      forall p, In p allFiles -> marked pf p = true ->
        stored_as_fragment pf (loadEach pf allFiles w).2 p).
Proof.
  revert w. induction allFiles as [|q rest IH]; intros w; cbn [loadEach fst snd].
  - repeat split; simpl; tauto.
  - destruct (marked pf q) eqn:Hm; pose proof Hm as Hm'; unfold marked in Hm';
      rewrite Hm'.
    + destruct (readFile pf q) as [raw|e]; [|simpl; repeat split; [tauto | discriminate]].
      pose proof (hashFile_clips_then_categorizes (createFileObject pf q raw) w) as Hh.
      destruct (processClip (createFileObject pf q raw)) as [f'|e] eqn:Hclip.
      * destruct Hh as [Hhash [_ Hold]]. rewrite Hhash in *. simpl in Hold.
        destruct (hashFile_marked pf q raw w _ Hhash Hm) as [Hstored Hpages].
        destruct (IH (configureFiles f' w)) as [IH1 [IH2 IH3]].
        apply processClip_keeps_identity in Hclip as [Hpath _]. simpl in Hpath.
        split; [congruence|]. split.
        -- intros r Hr. cbn [In]. apply IH2 in Hr as [Hr | [Hin Hmr]]; [|tauto].
           apply Hold in Hr as [-> | Hr]; [|tauto].
           right. rewrite Hpath. tauto.
        -- intros Hres p [<- | Hin] Hmp.
           ++ apply loadEach_keeps_stored; assumption.
           ++ apply IH3; assumption.
      * rewrite Hh. simpl. repeat split; [tauto | discriminate].
    + destruct (IH w) as [IH1 [IH2 IH3]]. split; [exact IH1|]. split.
      * intros r Hr. cbn [In]. apply IH2 in Hr. tauto.
      * intros Hres p [<- | Hin] Hmp; [congruence | apply IH3; assumption].
Qed.

(** C9. [loadDependencies] registers, of the files discovered under the
    directory, those whose base name starts with [-] or [_] and no others:
    [pageFiles] is as before, every record newly in a collection belongs to
    a discovered file with such a name, and, when the run completes, every
    discovered file with such a name has its record in [insertFiles] or in
    [wrapFiles]. *)
Theorem loadDependencies_registers_marked (pf : Platform) (baseDir : jsstring)
    (o : Options.t) (w : World) :
  match discoverFiles pf baseDir (readdir pf baseDir) [] with
  | Ok allFiles =>
      pageFiles (loadDependencies pf baseDir o w).2 = pageFiles w
      /\ (forall r, registered (loadDependencies pf baseDir o w).2 r ->
            registered w r \/ (In (path r) allFiles /\ marked pf (path r) = true))
      /\ ((loadDependencies pf baseDir o w).1 = Ok tt ->
          forall p, In p allFiles -> marked pf p = true ->
            stored_as_fragment pf (loadDependencies pf baseDir o w).2 p)
  | Throw e => loadDependencies pf baseDir o w = (Throw e, setOptions o w)
  end.
Proof.
  unfold loadDependencies.
  destruct (discoverFiles pf baseDir (readdir pf baseDir) []) as [allFiles|e];
    [|reflexivity].
  exact (loadEach_spec pf allFiles (setOptions o w)).
Qed.

Lemma loadDependencies_registers_marked_witness :
  pageFiles (loadDependencies site (js "/src") Options.empty empty_world).2 = []
  /\ stored_as_fragment site
       (loadDependencies site (js "/src") Options.empty empty_world).2
       (js "/src/parts/-nav.html")
  /\ stored_as_fragment site
       (loadDependencies site (js "/src") Options.empty empty_world).2
       (js "/src/parts/_base.html").
Proof.
  pose proof (loadDependencies_registers_marked site (js "/src") Options.empty empty_world)
    as H.
  change (discoverFiles site (js "/src") (readdir site (js "/src")) [])
    with (Ok [js "/src/index.html"; js "/src/parts/-nav.html"; js "/src/parts/_base.html"])
    in H.
  destruct H as [Hpages [_ Hall]].
  split; [exact Hpages|].
  assert ((loadDependencies site (js "/src") Options.empty empty_world).1 = Ok tt) as Hok
    by (vm_compute; reflexivity).
  split; apply (Hall Hok); try (vm_compute; reflexivity).
  - right. left. reflexivity.
  - right. right. left. reflexivity.
Defined.

(** ** [processDirectory] *)

Lemma configureFiles_pages (f : File) (w : World) :
  Forall page_named (pageFiles w) ->
  Forall page_named (pageFiles (configureFiles f w))
  /\ written (configureFiles f w) = written w.
Proof.
  intros H. unfold configureFiles. destruct (category (name f)) eqn:E; simpl;
    (split; [|reflexivity]); try exact H.
  apply put_page_Forall; [exact E | exact H].
Qed.

Lemma hashEach_pages (pf : Platform) (allFiles : list jsstring) (w : World) :
  Forall page_named (pageFiles w) ->
  Forall page_named (pageFiles (hashEach pf allFiles w).2)
  /\ written (hashEach pf allFiles w).2 = written w.
Proof.
  revert w. induction allFiles as [|q rest IH]; intros w H; cbn [hashEach].
  - split; [exact H | reflexivity].
  - destruct (readFile pf q) as [raw|e]; [|split; [exact H | reflexivity]].
    unfold hashFile.
    destruct (processClip (createFileObject pf q raw)) as [f'|e];
      [|split; [exact H | reflexivity]].
    destruct (configureFiles_pages f' w H) as [Hp Hw].
    destruct (IH (configureFiles f' w) Hp) as [IH1 IH2].
    split; [exact IH1 | congruence].
Qed.

Lemma write_out_spec (pf : Platform) (cfg : DirConfig) (f : File) (text : jsstring)
    (w : World) :
  pageFiles (write_out pf cfg f text w).2 = pageFiles w
  /\ (written (write_out pf cfg f text w).2 = written w
      \/ exists dest, destDir cfg = Some dest
           /\ written (write_out pf cfg f text w).2
              = (dest_path pf cfg dest f, text) :: written w).
Proof.
  unfold write_out.
  destruct (destDir cfg) as [[|c dest]|]; simpl; try tauto.
  destruct (ensureDir pf _); simpl; [|tauto].
  destruct (writeFile pf _ text); simpl; [|tauto].
  split; [reflexivity|]. right. exists (c :: dest). split; reflexivity.
Qed.

Lemma processEach_spec (fuel : nat) (pf : Platform) (cfg : DirConfig)
    (pages : list File) (results : list Entry) (w : World) :
  match processEach fuel pf cfg pages results w with
  | Some (out, w') =>
      pageFiles w' = pageFiles w
      /\ (forall es, out = Ok es ->
            exists added, es = results ++ added
              /\ Forall (fun e => exists f, In f pages /\ entry_path e = path f
                                            /\ entry_name e = name f) added)
      /\ exists new, written w' = new ++ written w
           /\ Forall (fun pc => exists f dest, In f pages /\ destDir cfg = Some dest
                                   /\ pc.1 = dest_path pf cfg dest f) new
  | None => True
  end.
Proof.
  revert results w. induction pages as [|f rest IH]; intros results w; cbn [processEach].
  - split; [reflexivity|]. split.
    + intros es [= <-]. exists []. rewrite app_nil_r. split; [reflexivity | constructor].
    + exists []. split; [reflexivity | constructor].
  - destruct (processFile fuel pf w f _) as [[pfile conds]|]; [|exact I].
    pose proof (write_out_spec pf cfg f (content pfile) w) as [Hp Hw].
    destruct (write_out pf cfg f (content pfile) w) as [[[]|e] w1]; simpl in Hp, Hw.
    + specialize (IH (results ++ [ {| entry_path := path f; entry_name := name f;
                                     entry_content := content pfile |} ]) w1).
      destruct (processEach fuel pf cfg rest _ w1) as [[out w']|]; [|exact I].
      destruct IH as [IHp [IHe [new [IHw IHn]]]].
      split; [congruence|]. split.
      * intros es Hes. destruct (IHe es Hes) as [added [-> Hadd]].
        exists ({| entry_path := path f; entry_name := name f;
                   entry_content := content pfile |} :: added).
        rewrite <- app_assoc. split; [reflexivity|]. constructor.
        -- exists f. simpl. tauto.
        -- eapply Forall_impl; [exact Hadd|].
           intros e [g [Hin He]]. exists g. simpl. tauto.
      * assert (Forall (fun pc => exists g dest, In g (f :: rest) /\ destDir cfg = Some dest
                            /\ pc.1 = dest_path pf cfg dest g) new) as Hnew.
        { eapply Forall_impl; [exact IHn|].
          intros pc [g [dest [Hin Hd]]]. exists g, dest. simpl. tauto. }
        destruct Hw as [Hw | [dest [Hd Hw]]].
        -- exists new. split; [congruence | exact Hnew].
        -- exists (new ++ [(dest_path pf cfg dest f, content pfile)]).
           rewrite <- app_assoc. simpl. split; [congruence|].
           apply Forall_app. split; [exact Hnew|]. constructor; [|constructor].
           exists f, dest. simpl. tauto.
    + split; [exact Hp|]. split; [discriminate|].
      destruct Hw as [Hw | [dest [Hd Hw]]].
      * exists []. split; [exact Hw | constructor].
      * exists [(dest_path pf cfg dest f, content pfile)]. split; [exact Hw|].
        constructor; [|constructor]. exists f, dest. simpl. tauto.
Qed.

(** C10. What [processDirectory] returns and writes comes from the page
    partition only: every result entry and every file written to the
    destination belongs to a record of [pageFiles], whose name starts with
    neither [-] nor [_]; no entry and no written file belongs to a record of
    [insertFiles] or [wrapFiles]. *)
Theorem processDirectory_outputs_pages_only (fuel : nat) (pf : Platform)
    (cfg : DirConfig) (w : World) :
  Forall page_named (pageFiles w) ->
  match processDirectory fuel pf cfg w with
  | Some (out, w') =>
      (forall es, out = Ok es -> Forall (entry_of_page w') es)
      /\ exists new, written w' = new ++ written w
           /\ Forall (write_of_page pf cfg w') new
  | None => True
  end.
Proof.
  intros Hpages. unfold processDirectory.
  destruct (match files cfg with
            | Some l => Ok l
            | None => discoverFiles pf (srcDir cfg) (readdir pf (srcDir cfg)) []
            end) as [allFiles|e].
  2:{ split; [discriminate|]. exists []. split; [reflexivity | constructor]. }
  destruct (hashEach_pages pf allFiles (setOptions (dir_options cfg) w) Hpages)
    as [Hp2 Hw2].
  destruct (hashEach pf allFiles (setOptions (dir_options cfg) w)) as [[[]|e] w2];
    simpl in Hp2, Hw2.
  2:{ split; [discriminate|]. exists []. split; [exact Hw2 | constructor]. }
  pose proof (processEach_spec fuel pf cfg (pageFiles w2) [] w2) as H.
  destruct (processEach fuel pf cfg (pageFiles w2) [] w2) as [[out w']|]; [|exact I].
  destruct H as [Hp [He [new [Hw Hn]]]].
  rewrite List.Forall_forall in Hp2. split.
  - intros es Hes. destruct (He es Hes) as [added [-> Hadd]]. simpl.
    eapply Forall_impl; [exact Hadd|].
    intros e [f [Hin [H1 H2]]]. exists f. rewrite Hp.
    split; [exact Hin|]. split; [apply Hp2; exact Hin | tauto].
  - exists new. split; [congruence|].
    eapply Forall_impl; [exact Hn|].
    intros pc [f [dest [Hin [Hd Hpc]]]]. exists f, dest. rewrite Hp.
    split; [exact Hin|]. split; [apply Hp2; exact Hin | tauto].
Qed.

Lemma processDirectory_outputs_pages_only_witness :
  Forall page_named (pageFiles empty_world)
  /\ match processDirectory 10 site site_config empty_world with
     | Some (out, w') =>
         (forall es, out = Ok es -> Forall (entry_of_page w') es)
         /\ exists new, written w' = new ++ written empty_world
              /\ Forall (write_of_page site site_config w') new
     | None => True
     end.
Proof.
  split; [constructor|].
  apply (processDirectory_outputs_pages_only 10 site site_config empty_world).
  constructor.
Defined.

(** The sample site: one page is built and written; the two fragments are
    used and not written. *)
Example site_build :
  (fun r : result (list Entry) * World => (r.1, written r.2))
    <$> processDirectory 10 site site_config empty_world
  = Some (Ok [ {| entry_path := js "/src/index.html";
                  entry_name := js "index.html";
                  entry_content := js "<body><nav>menu</nav></body>" |} ],
          [ (js "/dist/index.html", js "<body><nav>menu</nav></body>") ]).
Proof. vm_compute. reflexivity. Qed.

(* ===================================================================== *)
(** * Further properties of the core *)
(* ===================================================================== *)

(** ** Clip processing on malformed markers *)

(** X1. An opening text that is not completed to a marker makes clip
    processing throw: with [<!--#clipbefore] in the content but no complete
    [ClipBefore] marker, or (with no [<!--#clipbefore]) [<!--#clipbetween] in
    the content but no complete [ClipBetween] marker, [processClip] calls
    [split] on [undefined]; [hashFile] then throws too and registers
    nothing. *)
Theorem clip_incomplete_opening_throws (f : File) (w : World) :
  (occurs clipbefore_open (content f) = true
   /\ has_tag clipbefore_open (content f) = false)
  \/ (occurs clipbefore_open (content f) = false
      /\ occurs clipbetween_open (content f) = true
      /\ has_tag clipbetween_open (content f) = false) ->
  processClip f = Throw TypeError
  /\ hashFile f w = (Throw TypeError, w).
Proof.
  intros H.
  assert (processClip f = Throw TypeError) as Hclip.
  { unfold processClip, clip_before_after.
    destruct H as [[Hocc Hno] | [Hocc [Hocc2 Hno]]]; rewrite Hocc.
    - rewrite (split_tag_free _ _ Hno). reflexivity.
    - unfold clip_between. rewrite Hocc2, (split_tag_free _ _ Hno). reflexivity. }
  split; [exact Hclip|]. unfold hashFile. rewrite Hclip. reflexivity.
Qed.

Lemma clip_incomplete_opening_throws_witness :
  processClip (fragment (js "/src/-card.html") (js "<p>a</p><!--#clipbefore now-->"))
  = Throw TypeError
  /\ hashFile (fragment (js "/src/-card.html") (js "<p>a</p><!--#clipbefore now-->"))
       empty_world
     = (Throw TypeError, empty_world).
Proof.
  apply clip_incomplete_opening_throws. left. split; reflexivity.
Defined.

(** X2. A [ClipBetween] marker that no [EndClipBetween] marker follows does
    not leave the content alone: what follows the marker is dropped and the
    text [undefined] is appended to what precedes it (the content has no
    [<!--#clipbefore] and no other [ClipBetween] marker). *)
Theorem clip_between_unclosed_appends_undefined (f : File) (pre cbw post : jsstring) :
  content f = pre ++ cbw ++ post ->
  tag clipbetween_open cbw ->
  occurs clipbefore_open (content f) = false ->
  has_tag clipbetween_open pre = false ->
  has_tag clipbetween_open post = false ->
  has_tag endclipbetween_open post = false ->
  processClip f = Ok (set_content f (pre ++ js "undefined")).
Proof.
  intros Hc Hcbw Hno Hpre Hpost Hend.
  unfold processClip, clip_before_after. rewrite Hno, Hc.
  unfold clip_between. rewrite (occurs_opening _ pre cbw _ Hcbw). cbv zeta.
  rewrite (split_at_tag _ pre cbw _ clipbetween_ok Hpre Hcbw).
  rewrite (split_tag_free _ _ Hpost). cbn [lookup list_lookup].
  rewrite (split_tag_free _ _ Hend). reflexivity.
Qed.

Lemma clip_between_unclosed_appends_undefined_witness :
  processClip (fragment (js "/src/-card.html") (js "<p>a</p><!--#clipbetween --><p>b</p>"))
  = Ok (set_content (fragment (js "/src/-card.html")
                       (js "<p>a</p><!--#clipbetween --><p>b</p>"))
          (js "<p>a</p>" ++ js "undefined")).
Proof.
  apply (clip_between_unclosed_appends_undefined _ (js "<p>a</p>")
           (js "<!--#clipbetween -->") (js "<p>b</p>")).
  - reflexivity.
  - exists (js " "). split; reflexivity.
  - reflexivity.
  - reflexivity.
  - reflexivity.
  - reflexivity.
Defined.

(** ** The pieces of [split] *)

Lemma split_go_head_prefix (m : matcher) (k : nat) (s h : jsstring) (t : list jsstring) :
  split_go m k s = h :: t -> exists r, drop k s = h ++ r.
Proof.
  revert k h t. induction s as [|c s IH]; intros k h t.
  - simpl. intros [= <- <-]. exists []. destruct k; reflexivity.
  - destruct k as [|k]; cbn [split_go drop].
    + destruct (m (c :: s)) as [[|n]|] eqn:E.
      * destruct (split_go m 0 s) as [|p ps] eqn:Hs.
        -- intros [= <- <-]. exists s. reflexivity.
        -- intros [= <- <-]. destruct (IH 0 p ps Hs) as [r Hr].
           exists r. change (drop 0 s) with s in Hr. rewrite Hr. reflexivity.
      * intros [= <- <-]. exists (c :: s). reflexivity.
      * destruct (split_go m 0 s) as [|p ps] eqn:Hs.
        -- intros [= <- <-]. exists s. reflexivity.
        -- intros [= <- <-]. destruct (IH 0 p ps Hs) as [r Hr].
           exists r. change (drop 0 s) with s in Hr. rewrite Hr. reflexivity.
    + apply IH.
Qed.

(** No piece of [s.split(sep)] holds a match of [sep]. *)
Lemma split_go_pieces_free (m : matcher) (k : nat) (s : jsstring) :
  extends m -> m [] = None ->
  Forall (fun p => ~ matches_in m p) (split_go m k s).
Proof.
  intros Hext Hnil.
  assert (~ matches_in m []) as Hempty.
  { intros [i [n H]]. rewrite drop_nil, Hnil in H. discriminate. }
  revert k. induction s as [|c s IH]; intros k.
  - simpl. constructor; [exact Hempty | constructor].
  - destruct k as [|k]; cbn [split_go]; [|apply IH].
    assert (forall p ps, split_go m 0 s = p :: ps ->
              (forall n, m (c :: s) <> Some (S n)) ->
              Forall (fun p => ~ matches_in m p) ((c :: p) :: ps)) as Hcons.
    { intros p ps Hs Hno. pose proof (IH 0) as Hall. rewrite Hs in Hall.
      inversion Hall as [|? ? Hp Hps]; subst. constructor; [|exact Hps].
      intros [i [n H]]. destruct i as [|i].
      - simpl in H. destruct (split_go_head_prefix m 0 s p ps Hs) as [r Hr].
        change (drop 0 s) with s in Hr. destruct (Hext _ r _ H) as [n' Hn'].
        simpl in Hn'. rewrite <- Hr in Hn'. exact (Hno _ Hn').
      - apply Hp. exists i, n. exact H. }
    destruct (m (c :: s)) as [[|n]|] eqn:E.
    + destruct (split_go m 0 s) as [|p ps] eqn:Hs.
      * destruct (split_not_nil m s Hs).
      * apply Hcons; [reflexivity | discriminate].
    + constructor; [exact Hempty | apply IH].
    + destruct (split_go m 0 s) as [|p ps] eqn:Hs.
      * destruct (split_not_nil m s Hs).
      * apply Hcons; [reflexivity | discriminate].
Qed.

Lemma tag_match_extends (o : jsstring) : extends (tag_match o).
Proof.
  intros u r n H. apply tag_match_Some in H as [ws [x [Hws [-> Hn]]]].
  rewrite <- !app_assoc. rewrite tag_match_tag by exact Hws.
  exists (length o + length ws + 2). f_equal. lia.
Qed.

Lemma lit_match_extends (lit : jsstring) : lit <> [] -> extends (lit_match lit).
Proof.
  intros Hne u r n H. unfold lit_match in *.
  destruct (starts_with lit u) eqn:E; [|discriminate].
  apply starts_with_iff in E as [x ->]. rewrite <- app_assoc, starts_with_app.
  destruct lit; [congruence|]. exists (length lit). reflexivity.
Qed.

Lemma not_matches_tag (o p : jsstring) :
  ~ matches_in (tag_match o) p -> has_tag o p = false.
Proof.
  intros H. apply has_tag_false_intro. intros i.
  destruct (tag_match o (drop i p)) as [n|] eqn:E; [|reflexivity].
  exfalso. apply H. pose proof E as E'.
  apply tag_match_Some in E' as [ws [x [_ [_ ->]]]].
  exists i, (length o + length ws + 2). rewrite E. f_equal. lia.
Qed.

Lemma not_matches_lit (lit p : jsstring) :
  lit <> [] -> ~ matches_in (lit_match lit) p -> occurs lit p = false.
Proof.
  intros Hne H. destruct (occurs lit p) eqn:E; [|reflexivity].
  exfalso. apply H. apply occurs_iff in E as [a [b ->]].
  exists (length a), (length lit - 1). rewrite drop_app_length.
  unfold lit_match. rewrite starts_with_app. destruct lit; [congruence|].
  simpl. f_equal. lia.
Qed.

Lemma clipafter_open_nonempty : clipafter_open <> [].
Proof. intros H. apply (f_equal length) in H. vm_compute in H. discriminate. Qed.

(** X3. A bracketing clip consumes its markers: when the content holds
    [<!--#clipbefore] and the first step of [processClip] returns, the text it
    returns holds no [ClipBefore] marker and no [<!--#clipafter]. *)
Theorem clip_before_after_consumes_markers (c y : jsstring) :
  occurs clipbefore_open c = true ->
  clip_before_after c = Ok y ->
  has_tag clipbefore_open y = false /\ occurs clipafter_open y = false.
Proof.
  intros Hocc. unfold clip_before_after. rewrite Hocc.
  pose proof (split_go_pieces_free (tag_match clipbefore_open) 0 c
                (tag_match_extends _) eq_refl) as Hpieces.
  fold (split (tag_match clipbefore_open) c) in Hpieces.
  destruct (split (tag_match clipbefore_open) c) as [|p0 [|x rest]];
    cbn [drop lookup list_lookup]; try discriminate.
  inversion Hpieces as [|? ? _ Hrest]; subst.
  inversion Hrest as [|? ? Hx _]; subst.
  pose proof (split_go_pieces_free (lit_match clipafter_open) 0 x
                (lit_match_extends _ clipafter_open_nonempty) eq_refl) as Hy.
  fold (split (lit_match clipafter_open) x) in Hy.
  destruct (split (lit_match clipafter_open) x) as [|y0 ys] eqn:Hsplit;
    cbn [take lookup list_lookup]; [discriminate|].
  intros [= <-]. inversion Hy as [|? ? Hy0 _]; subst. split.
  - destruct (has_tag clipbefore_open y0) eqn:E; [|reflexivity].
    apply has_tag_iff in E as [a [m [b [Hm ->]]]].
    destruct (split_go_head_prefix _ 0 x _ ys Hsplit) as [r Hr].
    change (drop 0 x) with x in Hr. apply not_matches_tag in Hx.
    assert (has_tag clipbefore_open x = true) as Hx'.
    { apply has_tag_iff. exists a, m, (b ++ r). split; [exact Hm|].
      rewrite Hr, <- !app_assoc. reflexivity. }
    congruence.
  - apply not_matches_lit; [exact clipafter_open_nonempty | exact Hy0].
Qed.

Lemma clip_before_after_consumes_markers_witness :
  has_tag clipbefore_open (js "a") = false /\ occurs clipafter_open (js "a") = false.
Proof.
  apply (clip_before_after_consumes_markers
           (js "x<!--#clipbefore -->a<!--#clipbefore -->b<!--#clipafter -->y") (js "a")).
  - reflexivity.
  - vm_compute. reflexivity.
Defined.

(** ** Discovery of the source files *)

Lemma discoverFiles_Directory (pf : Platform) (dir : jsstring)
    (es : list (jsstring * FsNode)) (fl : list jsstring) :
  discoverFiles pf dir (Directory es) fl = discover_entries pf dir es fl.
Proof.
  revert fl. induction es as [|[n e] es IH]; intros fl; [reflexivity|].
  change (discoverFiles pf dir (Directory ((n, e) :: es)) fl)
    with (match e with
          | Directory _ | Unreadable _ =>
              match discoverFiles pf (path_join pf dir n) e fl with
              | Ok fl' => discoverFiles pf dir (Directory es) fl'
              | Throw err => Throw err
              end
          | RegularFile =>
              discoverFiles pf dir (Directory es)
                (if ends_with (js ".html") (path_join pf dir n)
                 then fl ++ [path_join pf dir n] else fl)
          | OtherEntry => discoverFiles pf dir (Directory es) fl
          end).
  cbn [discover_entries]. cbv zeta.
  destruct e as [sub| | |code]; rewrite ?IH; try reflexivity.
  destruct (discoverFiles pf (path_join pf dir n) (Directory sub) fl);
    [apply IH | reflexivity].
Qed.

Lemma listable_Directory (es : list (jsstring * FsNode)) :
  listable (Directory es) = listable_entries es.
Proof.
  induction es as [|[n e] es IH]; [reflexivity|].
  cbn [listable_entries]. rewrite <- IH. destruct e; reflexivity.
Qed.

(** X4. [discoverFiles] only appends to the list it is given, and what it
    appends does not depend on that list: started from [fileList] it returns
    [fileList] followed by what it returns from the empty list, every appended
    path ends in [.html], and it throws exactly when the run from the empty
    list throws, with the same error. *)
Theorem discoverFiles_appends_html (pf : Platform) (dir : jsstring) (node : FsNode)
    (fileList : list jsstring) :
  match discoverFiles pf dir node [] with
  | Ok found =>
      discoverFiles pf dir node fileList = Ok (fileList ++ found)
      /\ Forall (fun p => ends_with (js ".html") p = true) found
  | Throw e => discoverFiles pf dir node fileList = Throw e
  end.
Proof.
  revert dir fileList. induction node as [es IH| | |code] using FsNode_nested_ind;
    intros dir fileList; try reflexivity.
  rewrite !discoverFiles_Directory.
  assert (forall acc base,
            Forall (fun p => ends_with (js ".html") p = true) acc ->
            match discover_entries pf dir es acc with
            | Ok found =>
                discover_entries pf dir es (base ++ acc) = Ok (base ++ found)
                /\ Forall (fun p => ends_with (js ".html") p = true) found
            | Throw e => discover_entries pf dir es (base ++ acc) = Throw e
            end) as Hgen.
  { induction es as [|[n e] es IHes]; intros acc base Hacc.
    - cbn [discover_entries]. split; [reflexivity | exact Hacc].
    - inversion IH as [|? ? He Hes]; subst. specialize (IHes Hes).
      cbn [discover_entries]. cbv zeta. cbn [snd] in He.
      destruct e as [sub| | |code].
      + pose proof (He (path_join pf dir n) acc) as H1.
        pose proof (He (path_join pf dir n) (base ++ acc)) as H2.
        destruct (discoverFiles pf (path_join pf dir n) (Directory sub) [])
          as [found|e]; [|rewrite H1, H2; reflexivity].
        destruct H1 as [-> Hfound]. destruct H2 as [-> _].
        rewrite <- app_assoc. apply IHes. apply Forall_app. split; assumption.
      + destruct (ends_with (js ".html") (path_join pf dir n)) eqn:E.
        * rewrite <- app_assoc. apply IHes.
          apply Forall_app. split; [exact Hacc|]. constructor; [exact E|constructor].
        * apply IHes. exact Hacc.
      + apply IHes. exact Hacc.
      + reflexivity. }
  specialize (Hgen [] fileList (Forall_nil_2 _)). rewrite app_nil_r in Hgen.
  exact Hgen.
Qed.

(** X5. [discoverFiles] returns a list exactly when [dir] is a directory
    whose sub-directories can all be read, at every depth; in any other case
    it throws: one unreadable sub-directory fails the whole discovery. *)
Theorem discoverFiles_returns_iff_listable (pf : Platform) (dir : jsstring)
    (node : FsNode) (fileList : list jsstring) :
  (exists found, discoverFiles pf dir node fileList = Ok found)
  <-> listable node = true.
Proof.
  revert dir fileList. induction node as [es IH| | |code] using FsNode_nested_ind;
    intros dir fileList;
    try (split; [intros [found H]; discriminate | discriminate]).
  rewrite discoverFiles_Directory, listable_Directory.
  revert fileList. induction es as [|[n e] es IHes]; intros fileList.
  - split; [reflexivity | intros _; eexists; reflexivity].
  - inversion IH as [|? ? He Hes]; subst. specialize (IHes Hes).
    cbn [discover_entries listable_entries]. cbv zeta. cbn [snd] in He.
    destruct e as [sub| | |code].
    + rewrite andb_true_iff, <- (He (path_join pf dir n) fileList).
      destruct (discoverFiles pf (path_join pf dir n) (Directory sub) fileList)
        as [fl'|e].
      * rewrite IHes. split; [intros H; split; [eexists; reflexivity | exact H]|].
        intros [_ H]. exact H.
      * split; [intros [found H]; discriminate | intros [[found H] _]; discriminate].
    + apply IHes.
    + apply IHes.
    + split; [intros [found H]; discriminate | discriminate].
Qed.

Lemma discover_entries_In (pf : Platform) (dir : jsstring)
    (es : list (jsstring * FsNode)) :
  Forall (fun ne => forall d fl out, discoverFiles pf d ne.2 fl = Ok out ->
            forall p, In p out <->
              In p fl \/ file_at pf d ne.2 p /\ ends_with (js ".html") p = true) es ->
  forall fl out, discover_entries pf dir es fl = Ok out ->
  forall p, In p out <->
    In p fl
    \/ ((exists n, In (n, RegularFile) es /\ p = path_join pf dir n)
         \/ (exists n sub, In (n, Directory sub) es
                /\ file_at pf (path_join pf dir n) (Directory sub) p))
        /\ ends_with (js ".html") p = true.
Proof.
  induction es as [|[n e] es IHes]; intros IH fl out Hout p.
  - cbn [discover_entries] in Hout. injection Hout as <-. split; [tauto|].
    intros [H | [[[x [[] _]] | [x [sub [[] _]]]] _]]. exact H.
  - inversion IH as [|? ? He Hes]; subst. specialize (IHes Hes).
    cbn [discover_entries] in Hout. cbv zeta in Hout. cbn [snd] in He.
    destruct e as [sub| | |code].
    + destruct (discoverFiles pf (path_join pf dir n) (Directory sub) fl) as [fl'|e]
        eqn:Hfound; [|discriminate].
      rewrite (IHes _ _ Hout p), (He _ _ _ Hfound p). cbn [In]. split.
      * intros [[H | [H1 H2]] | [[[x [H ->]] | [x [s' [H H']]]] H2]].
        -- left; exact H.
        -- right. split; [|exact H2]. right. exists n, sub. split; [left; reflexivity|exact H1].
        -- right. split; [|exact H2]. left. exists x. split; [right; exact H|reflexivity].
        -- right. split; [|exact H2]. right. exists x, s'. split; [right; exact H|exact H'].
      * intros [H | [[[x [[H|H] ->]] | [x [s' [[H|H] H']]]] H2]].
        -- left; left; exact H.
        -- discriminate.
        -- right. split; [|exact H2]. left. exists x. split; [exact H|reflexivity].
        -- injection H as <- <-. left; right. split; assumption.
        -- right. split; [|exact H2]. right. exists x, s'. split; assumption.
    + rewrite (IHes _ _ Hout p). cbn [In].
      destruct (ends_with (js ".html") (path_join pf dir n)) eqn:E.
      * rewrite in_app_iff. cbn [In]. split.
        -- intros [[H | [H | []]] | [[[x [H ->]] | [x [s' [H H']]]] H2]].
           ++ left; exact H.
           ++ right. subst p. split; [|exact E]. left. exists n.
              split; [left; reflexivity|reflexivity].
           ++ right. split; [|exact H2]. left. exists x. split; [right; exact H|reflexivity].
           ++ right. split; [|exact H2]. right. exists x, s'. split; [right; exact H|exact H'].
        -- intros [H | [[[x [[H|H] ->]] | [x [s' [[H|H] H']]]] H2]].
           ++ left; left; exact H.
           ++ injection H as <-. left; right; left; reflexivity.
           ++ right. split; [|exact H2]. left. exists x. split; [exact H|reflexivity].
           ++ discriminate.
           ++ right. split; [|exact H2]. right. exists x, s'. split; assumption.
      * split.
        -- intros [H | [[[x [H ->]] | [x [s' [H H']]]] H2]].
           ++ left; exact H.
           ++ right. split; [|exact H2]. left. exists x. split; [right; exact H|reflexivity].
           ++ right. split; [|exact H2]. right. exists x, s'. split; [right; exact H|exact H'].
        -- intros [H | [[[x [[H|H] ->]] | [x [s' [[H|H] H']]]] H2]].
           ++ left; exact H.
           ++ injection H as <-. congruence.
           ++ right. split; [|exact H2]. left. exists x. split; [exact H|reflexivity].
           ++ discriminate.
           ++ right. split; [|exact H2]. right. exists x, s'. split; assumption.
    + rewrite (IHes _ _ Hout p). cbn [In]. split.
      * intros [H | [[[x [H ->]] | [x [s' [H H']]]] H2]].
        -- left; exact H.
        -- right. split; [|exact H2]. left. exists x. split; [right; exact H|reflexivity].
        -- right. split; [|exact H2]. right. exists x, s'. split; [right; exact H|exact H'].
      * intros [H | [[[x [[H|H] ->]] | [x [s' [[H|H] H']]]] H2]].
        -- left; exact H.
        -- discriminate.
        -- right. split; [|exact H2]. left. exists x. split; [exact H|reflexivity].
        -- discriminate.
        -- right. split; [|exact H2]. right. exists x, s'. split; assumption.
    + discriminate.
Qed.

(** X6. What [discoverFiles] returns is the given list together with exactly
    the regular files of the tree whose joined path ends in [.html]: nothing
    else is added, and no such file is missed, at any depth. *)
Theorem discoverFiles_finds_exactly (pf : Platform) (dir : jsstring) (node : FsNode)
    (fileList out : list jsstring) :
  discoverFiles pf dir node fileList = Ok out ->
  forall p, In p out <->
    In p fileList \/ file_at pf dir node p /\ ends_with (js ".html") p = true.
Proof.
  revert dir fileList out.
  induction node as [es IH| | |code] using FsNode_nested_ind;
    intros dir fileList out Hout p; try discriminate.
  rewrite discoverFiles_Directory in Hout.
  rewrite (discover_entries_In pf dir es IH _ _ Hout p).
  split; (intros [H | [H1 H2]]; [left; exact H | right; split; [|exact H2]]).
  - destruct H1 as [[n [H ->]] | [n [sub [H H']]]].
    + apply file_here. exact H.
    + apply (file_below pf dir es n sub p H H').
  - inversion H1 as [? ? n H | ? ? n sub ? H H']; subst.
    + left. exists n. split; [exact H | reflexivity].
    + right. exists n, sub. split; assumption.
Qed.

Lemma discoverFiles_finds_exactly_witness :
  In (js "/src/parts/-nav.html")
     [js "/src/index.html"; js "/src/parts/-nav.html"; js "/src/parts/_base.html"]
  <-> In (js "/src/parts/-nav.html") []
      \/ file_at site (js "/src") site_tree (js "/src/parts/-nav.html")
         /\ ends_with (js ".html") (js "/src/parts/-nav.html") = true.
Proof.
  apply (discoverFiles_finds_exactly site (js "/src") site_tree []).
  vm_compute. reflexivity.
Defined.

(** X7. Only the first [ClipBetween] pair counts: when a second
    [ClipBetween] marker follows the first pair, the result is the text
    before the first marker followed by the text between the first
    [EndClipBetween] marker and the second [ClipBetween] marker; everything
    from the second [ClipBetween] marker on is dropped, whatever it is. *)
Theorem clip_between_second_pair_dropped (f : File)
    (pre cbw mid ecb keep cbw2 rest : jsstring) :
  content f = pre ++ cbw ++ mid ++ ecb ++ keep ++ cbw2 ++ rest ->
  tag clipbetween_open cbw ->
  tag endclipbetween_open ecb ->
  tag clipbetween_open cbw2 ->
  occurs clipbefore_open (content f) = false ->
  has_tag clipbetween_open pre = false ->
  has_tag clipbetween_open mid = false ->
  has_tag clipbetween_open keep = false ->
  has_tag endclipbetween_open mid = false ->
  has_tag endclipbetween_open keep = false ->
  processClip f = Ok (set_content f (pre ++ keep)).
Proof.
  intros Hc Hcbw Hecb Hcbw2 Hno Hpre Hmid Hkeep Hemid Hekeep.
  unfold processClip, clip_before_after. rewrite Hno, Hc.
  unfold clip_between. rewrite (occurs_opening _ pre cbw _ Hcbw). cbv zeta.
  rewrite (split_at_tag _ pre cbw _ clipbetween_ok Hpre Hcbw).
  destruct (tag_shape _ ecb endclipbetween_ok Hecb) as [tl [Hshape Htl]].
  assert (has_tag clipbetween_open (mid ++ ecb ++ keep) = false) as Hfree.
  { apply (has_tag_concat _ mid ecb tl keep); try assumption.
    - exact clipbetween_ok.
    - destruct Hecb as [ws [_ ->]]. rewrite <- !app_assoc.
      apply clipbetween_not_at_end. }
  replace (mid ++ ecb ++ keep ++ cbw2 ++ rest)
    with ((mid ++ ecb ++ keep) ++ cbw2 ++ rest) by (rewrite <- !app_assoc; reflexivity).
  rewrite (split_at_tag _ (mid ++ ecb ++ keep) cbw2 _ clipbetween_ok Hfree Hcbw2).
  cbn [lookup list_lookup].
  rewrite (split_at_tag _ mid ecb _ endclipbetween_ok Hemid Hecb).
  rewrite (split_tag_free _ _ Hekeep). reflexivity.
Qed.

Lemma clip_between_second_pair_dropped_witness :
  processClip (fragment (js "/src/-card.html")
    (js "a<!--#clipbetween -->b<!--#endclipbetween -->c<!--#clipbetween -->d"))
  = Ok (set_content (fragment (js "/src/-card.html")
          (js "a<!--#clipbetween -->b<!--#endclipbetween -->c<!--#clipbetween -->d"))
          (js "a" ++ js "c")).
Proof.
  apply (clip_between_second_pair_dropped _ (js "a") (js "<!--#clipbetween -->")
           (js "b") (js "<!--#endclipbetween -->") (js "c")
           (js "<!--#clipbetween -->") (js "d")).
  - reflexivity.
  - exists (js " "). split; reflexivity.
  - exists (js " "). split; reflexivity.
  - exists (js " "). split; reflexivity.
  - reflexivity.
  - reflexivity.
  - reflexivity.
  - reflexivity.
  - reflexivity.
  - reflexivity.
Defined.

(** ** File objects *)

Lemma skip_ws_fixed (s : jsstring) : skip_ws (skip_ws s) = skip_ws s.
Proof.
  induction s as [|c s IH]; simpl; [reflexivity|].
  destruct (is_ws c) eqn:E; [exact IH|]. simpl. rewrite E. reflexivity.
Qed.

Lemma skip_ws_rev_tail (s : jsstring) :
  skip_ws s = s -> skip_ws (rev (skip_ws (rev s))) = rev (skip_ws (rev s)).
Proof.
  intros Hs. destruct s as [|c s]; [reflexivity|].
  simpl in Hs. destruct (is_ws c) eqn:E.
  - exfalso. pose proof (take_skip_ws s) as H. rewrite Hs in H.
    apply (f_equal length) in H. rewrite length_app in H. simpl in H. lia.
  - pose proof (take_skip_ws (rev (c :: s))) as H.
    apply (f_equal (@rev N)) in H. rewrite rev_involutive, rev_app_distr in H.
    destruct (rev (skip_ws (rev (c :: s)))) as [|d t] eqn:Ht.
    + reflexivity.
    + simpl in H. injection H as <- _. simpl. rewrite E. reflexivity.
Qed.

(** X8. [createFileObject] strips white space from the two ends of the
    text and nothing else: the raw text is the stored content between two
    runs of white space, and the stored content neither starts nor ends with
    white space. *)
Theorem createFileObject_trims (pf : Platform) (filePath raw : jsstring) :
  (exists a b, raw = a ++ content (createFileObject pf filePath raw) ++ b
               /\ forallb is_ws a = true /\ forallb is_ws b = true)
  /\ skip_ws (content (createFileObject pf filePath raw))
     = content (createFileObject pf filePath raw)
  /\ skip_ws (rev (content (createFileObject pf filePath raw)))
     = rev (content (createFileObject pf filePath raw)).
Proof.
  cbn [createFileObject content]. unfold trim.
  split; [|split].
  - exists (take_ws raw), (rev (take_ws (rev (skip_ws raw)))).
    split; [|split].
    + rewrite <- rev_app_distr, <- take_skip_ws, rev_involutive. apply take_skip_ws.
    + apply take_ws_all.
    + rewrite forallb_forall. intros x Hx. apply in_rev in Hx.
      pose proof (take_ws_all (rev (skip_ws raw))) as H.
      rewrite forallb_forall in H. exact (H x Hx).
  - apply skip_ws_rev_tail, skip_ws_fixed.
  - rewrite rev_involutive. apply skip_ws_fixed.
Qed.

(** The buffer of a file object holds U+FFFD for a surrogate on its own. *)
Example Buffer_from_samples :
  Buffer_from (js "a<") = [97; 60]%N
  /\ Buffer_from [233; 8364]%N = [195; 169; 226; 130; 172]%N
  /\ Buffer_from [55357; 56832]%N = [240; 159; 152; 128]%N
  /\ Buffer_from [55357; 97]%N = [239; 191; 189; 97]%N
  /\ Buffer_from [56832]%N = [239; 191; 189]%N.
Proof. vm_compute. repeat split; reflexivity. Qed.

(** ** The build of a directory *)




Lemma hashFile_written (f : File) (w : World) :
  written (hashFile f w).2 = written w.
Proof.
  unfold hashFile. destruct (processClip f) as [f'|e]; [|reflexivity].
  unfold configureFiles. destruct (category (name f')); reflexivity.
Qed.

Lemma hashEach_written (pf : Platform) (allFiles : list jsstring) (w : World) :
  written (hashEach pf allFiles w).2 = written w.
Proof.
  revert w. induction allFiles as [|p rest IH]; intros w; [reflexivity|].
  cbn [hashEach]. destruct (readFile pf p) as [raw|e]; [|reflexivity].
  pose proof (hashFile_written (createFileObject pf p raw) w) as H.
  destruct (hashFile (createFileObject pf p raw) w) as [[[]|e] w1];
    cbn [snd] in H |- *; [rewrite IH|]; exact H.
Qed.


Lemma hashEach_app (pf : Platform) (a b : list jsstring) (w : World) :
  hashEach pf (a ++ b) w
  = match hashEach pf a w with
    | (Ok _, w') => hashEach pf b w'
    | (Throw e, w') => (Throw e, w')
    end.
Proof.
  revert w. induction a as [|p a IH]; intros w; [reflexivity|].
  cbn [hashEach app]. destruct (readFile pf p) as [raw|e]; [|reflexivity].
  destruct (hashFile (createFileObject pf p raw) w) as [[[]|e] w1]; [apply IH|reflexivity].
Qed.

(** X12. One file that cannot be registered stops the whole build: when a
    file of the list cannot be read, or its clip processing throws, while the
    files before it were registered, [processDirectory] throws that error
    without processing or writing any page, for every amount of fuel; the files
    registered before the failure stay registered. *)
Theorem processDirectory_stops_at_failed_file (fuel : nat) (pf : Platform)
    (cfg : DirConfig) (w : World) (before after : list jsstring) (p : jsstring)
    (e : error) :
  match files cfg with
  | Some l => Ok l
  | None => discoverFiles pf (srcDir cfg) (readdir pf (srcDir cfg)) []
  end = Ok (before ++ p :: after) ->
  (hashEach pf before (setOptions (dir_options cfg) w)).1 = Ok tt ->
  readFile pf p = Throw e
  \/ (exists raw, readFile pf p = Ok raw
                  /\ processClip (createFileObject pf p raw) = Throw e) ->
  processDirectory fuel pf cfg w
  = Some (Throw e, (hashEach pf before (setOptions (dir_options cfg) w)).2)
  /\ written (hashEach pf before (setOptions (dir_options cfg) w)).2 = written w.
Proof.
  intros Hfiles Hbefore Hfail. split; [|rewrite hashEach_written; reflexivity].
  unfold processDirectory. cbv zeta. rewrite Hfiles, hashEach_app.
  destruct (hashEach pf before (setOptions (dir_options cfg) w)) as [[[]|e'] w2];
    [|discriminate].
  cbn [hashEach snd]. destruct Hfail as [-> | [raw [-> Hclip]]]; [reflexivity|].
  unfold hashFile. rewrite Hclip. reflexivity.
Qed.

Lemma processDirectory_stops_at_failed_file_witness :
  processDirectory 10 site
    {| srcDir := js "/src"; destDir := Some (js "/dist"); dir_options := Options.empty;
       files := Some ([js "/src/index.html"] ++ js "/src/missing.html"
                        :: [js "/src/parts/-nav.html"]) |}
    empty_world
  = Some (Throw (FsError (js "ENOENT")),
          (hashEach site [js "/src/index.html"]
             (setOptions Options.empty empty_world)).2)
  /\ written (hashEach site [js "/src/index.html"]
                (setOptions Options.empty empty_world)).2
     = written empty_world.
Proof.
  apply (processDirectory_stops_at_failed_file 10 site
           {| srcDir := js "/src"; destDir := Some (js "/dist");
              dir_options := Options.empty;
              files := Some ([js "/src/index.html"] ++ js "/src/missing.html"
                               :: [js "/src/parts/-nav.html"]) |}
           empty_world [js "/src/index.html"] [js "/src/parts/-nav.html"]
           (js "/src/missing.html") (FsError (js "ENOENT"))).
  - reflexivity.
  - vm_compute. reflexivity.
  - left. vm_compute. reflexivity.
Defined.

(* ===================================================================== *)
(** * Properties of the configuration loader *)
(* ===================================================================== *)

Section ConfigLoaderProperties.
Import ConfigLoader.

Lemma mergeConfig_VObj (defaults : jsval) (fields : list (jsstring * jsval)) :
  mergeConfig defaults (VObj fields)
  = VObj <$> merge_fields defaults fields (spread defaults).
Proof.
  cbn [mergeConfig]. generalize (spread defaults) as merged.
  induction fields as [|[key v] l IH]; intros merged; [reflexivity|].
  cbn [merge_fields].
  destruct v; try (destruct (assign key _ merged); [apply IH | reflexivity]).
  destruct (default_for defaults key) as [d|]; [|reflexivity].
  destruct (mergeConfig d (VObj fields)) as [m|]; [|reflexivity].
  destruct (assign key m merged); [apply IH | reflexivity].
Qed.

Lemma own_set_prop (fields : list (jsstring * jsval)) (k k' : jsstring) (v : jsval) :
  own (set_prop fields k v) k' = if jsstring_eqb k' k then Some v else own fields k'.
Proof.
  induction fields as [|[k0 v0] rest IH]; cbn [set_prop own].
  - reflexivity.
  - destruct (jsstring_eqb k k0) eqn:E; cbn [own].
    + apply jsstring_eqb_eq in E as ->.
      destruct (jsstring_eqb k' k0); reflexivity.
    + rewrite IH. destruct (jsstring_eqb k' k) eqn:E1; [|reflexivity].
      apply jsstring_eqb_eq in E1 as ->. rewrite E. reflexivity.
Qed.

Lemma own_None_keys (l : list (jsstring * jsval)) (k : jsstring) :
  k ∉ map fst l -> own l k = None.
Proof.
  induction l as [|[k0 v0] rest IH]; cbn [own map fst]; [reflexivity|].
  intros H. apply not_elem_of_cons in H as [Hne H].
  destruct (jsstring_eqb k k0) eqn:E; [|apply IH, H].
  apply jsstring_eqb_eq in E. contradiction.
Qed.

(** The value [mergeConfig] stores under a key the user gives. *)
Lemma merge_fields_lookup (defaults : jsval) (l merged out : list (jsstring * jsval)) :
  merge_fields defaults l merged = Some out ->
  NoDup (map fst l) ->
  forall k,
    own out k
    = match own l k with
      | None => own merged k
      | Some (VObj o) => default_for defaults k ≫= fun d => mergeConfig d (VObj o)
      | Some v => Some v
      end.
Proof.
  revert merged. induction l as [|[key v] l IH]; intros merged Hm Hnd k.
  - cbn in Hm. injection Hm as <-. reflexivity.
  - cbn [map fst] in Hnd. apply NoDup_cons in Hnd as [Hkey Hnd].
    cbn [merge_fields] in Hm. cbn [own].
    assert (forall mv merged',
              assign key mv merged = Some merged' ->
              merge_fields defaults l merged' = Some out ->
              own out k = if jsstring_eqb k key then Some mv
                          else match own l k with
                               | None => own merged k
                               | Some (VObj o) =>
                                   default_for defaults k ≫= fun d => mergeConfig d (VObj o)
                               | Some v => Some v
                               end) as Hstep.
    { intros mv merged' Ha Hrest. unfold assign in Ha.
      destruct (jsstring_eqb key (js "__proto__")); [discriminate|].
      injection Ha as <-. rewrite (IH _ Hrest Hnd k).
      destruct (jsstring_eqb k key) eqn:E.
      - apply jsstring_eqb_eq in E as ->. rewrite (own_None_keys l key Hkey).
        rewrite own_set_prop, jsstring_eqb_refl. reflexivity.
      - destruct (own l k) as [v'|]; [reflexivity|].
        rewrite own_set_prop, E. reflexivity. }
    destruct v;
      try (destruct (assign key _ merged) as [merged'|] eqn:Ha; [|discriminate];
           rewrite (Hstep _ _ Ha Hm); destruct (jsstring_eqb k key); reflexivity).
    destruct (default_for defaults key) as [d|] eqn:Hd; [|discriminate].
    destruct (mergeConfig d (VObj fields)) as [m|] eqn:Hmerge; [|discriminate].
    destruct (assign key m merged) as [merged'|] eqn:Ha; [|discriminate].
    rewrite (Hstep _ _ Ha Hm). destruct (jsstring_eqb k key) eqn:E; [|reflexivity].
    apply jsstring_eqb_eq in E as ->. rewrite Hd. cbn [mbind option_bind].
    rewrite Hmerge. reflexivity.
Qed.

(** X13. What a merge holds, for a user configuration that is an object:
    a key the user does not give keeps the default; a key the user gives with
    a value that is no plain object (a string, a number, [null], an array, a
    function) takes that value as it is, so [null] and arrays replace the
    default and are never merged; a key the user gives with a plain object
    takes the merge of that object into the default under the key, or into
    the empty object when that default is missing or falsy. *)
Theorem mergeConfig_lookup (d u : list (jsstring * jsval)) (m : jsval) :
  mergeConfig (VObj d) (VObj u) = Some m ->
  NoDup (map fst u) ->
  exists fields, m = VObj fields
    /\ forall k,
         own fields k
         = match own u k with
           | None => own d k
           | Some (VObj o) => default_for (VObj d) k ≫= fun dk => mergeConfig dk (VObj o)
           | Some v => Some v
           end.
Proof.
  intros Hm Hnd. rewrite mergeConfig_VObj in Hm.
  destruct (merge_fields (VObj d) u (spread (VObj d))) as [out|] eqn:Hout;
    [|discriminate].
  injection Hm as <-. exists out. split; [reflexivity|].
  intros k. exact (merge_fields_lookup _ _ _ _ Hout Hnd k).
Qed.

Lemma mergeConfig_lookup_witness :
  exists fields,
    sample_merged = VObj fields
    /\ forall k,
         own fields k
         = match own (spread sample_user) k with
           | None => own (spread defaultConfig) k
           | Some (VObj o) =>
               default_for (VObj (spread defaultConfig)) k
                 ≫= fun dk => mergeConfig dk (VObj o)
           | Some v => Some v
           end.
Proof.
  apply (mergeConfig_lookup (spread defaultConfig) (spread sample_user)).
  - vm_compute. reflexivity.
  - apply (bool_decide_unpack _). vm_compute. exact I.
Defined.

(** A plain object the user gives under a key was merged, and the merge is
    an object again. *)
Lemma merge_fields_nested (defaults : jsval) (l merged out : list (jsstring * jsval))
    (k : jsstring) (o : list (jsstring * jsval)) :
  merge_fields defaults l merged = Some out ->
  own l k = Some (VObj o) ->
  exists d fields, default_for defaults k = Some d
                   /\ merge_fields d o (spread d) = Some fields.
Proof.
  revert merged. induction l as [|[key v] l IH]; intros merged Hm Hk; [discriminate|].
  cbn [own] in Hk. cbn [merge_fields] in Hm.
  destruct (jsstring_eqb k key) eqn:E.
  - apply jsstring_eqb_eq in E as ->. injection Hk as ->.
    destruct (default_for defaults key) as [d|] eqn:Hd; [|discriminate].
    rewrite mergeConfig_VObj in Hm.
    destruct (merge_fields d o (spread d)) as [fields|] eqn:Hfs; [|discriminate].
    exists d, fields. split; [reflexivity | exact Hfs].
  - destruct v;
      try (destruct (assign key _ merged) as [merged'|]; [|discriminate];
           exact (IH _ Hm Hk)).
    destruct (default_for defaults key) as [d|]; [|discriminate].
    destruct (mergeConfig d (VObj fields)) as [m|]; [|discriminate].
    destruct (assign key m merged) as [merged'|]; [|discriminate].
    exact (IH _ Hm Hk).
Qed.

(** Under a key the user gives, the merged value is the user's value or,
    for a plain object, an object again. *)
Lemma merge_fields_kind (defaults : jsval) (l merged out : list (jsstring * jsval))
    (k : jsstring) (v : jsval) :
  merge_fields defaults l merged = Some out ->
  NoDup (map fst l) ->
  own l k = Some v ->
  own out k = Some v
  \/ exists o d fields, v = VObj o /\ default_for defaults k = Some d
                        /\ merge_fields d o (spread d) = Some fields
                        /\ own out k = Some (VObj fields).
Proof.
  intros Hm Hnd Hk. pose proof (merge_fields_lookup _ _ _ _ Hm Hnd k) as Hl.
  rewrite Hk in Hl.
  destruct v; try (left; exact Hl).
  right. destruct (merge_fields_nested _ _ _ _ _ _ Hm Hk) as [d [fs [Hd Hfs]]].
  exists fields, d, fs. split; [reflexivity|]. split; [exact Hd|]. split; [exact Hfs|].
  rewrite Hl, Hd. cbn [mbind option_bind]. rewrite mergeConfig_VObj, Hfs. reflexivity.
Qed.

Lemma merged_simple_check (P : jsval -> bool) (defaults : jsval)
    (l merged out : list (jsstring * jsval)) (k : jsstring) :
  (forall a b, P (VObj a) = P (VObj b)) ->
  P (default VUndefined (own merged k)) = P VUndefined ->
  merge_fields defaults l merged = Some out ->
  NoDup (map fst l) ->
  P (default VUndefined (own out k)) = P (default VUndefined (own l k)).
Proof.
  intros Hobj Hdef Hm Hnd. destruct (own l k) as [v|] eqn:Hk.
  - destruct (merge_fields_kind _ _ _ _ _ _ Hm Hnd Hk)
      as [-> | [o [d [fs [-> [_ [_ ->]]]]]]]; [reflexivity | apply Hobj].
  - pose proof (merge_fields_lookup _ _ _ _ Hm Hnd k) as Hl. rewrite Hk in Hl.
    rewrite Hl. exact Hdef.
Qed.

(** X14. Validating a merged configuration is validating the user's
    configuration with the default [srcDir] filled in when the user gives
    none: the verdict and the message are the same, no other default changes
    them, and a [srcDir] the user sets to a falsy value is not replaced by the
    default. *)
Theorem validateConfig_after_merge (u : list (jsstring * jsval)) (m : jsval) :
  mergeConfig defaultConfig (VObj u) = Some m ->
  NoDup (map fst u) ->
  (forall uo, own u (js "options") = Some (VObj uo) -> NoDup (map fst uo)) ->
  validateConfig m
  = validateConfig
      (VObj (match own u (js "srcDir") with
             | None => (js "srcDir", VStr (js "./src")) :: u
             | Some _ => u
             end)).
Proof.
  intros Hm Hnd Hopt. rewrite mergeConfig_VObj in Hm.
  destruct (merge_fields defaultConfig u (spread defaultConfig)) as [out|] eqn:Hout;
    [|discriminate].
  injection Hm as <-.
  set (u' := match own u (js "srcDir") with
             | None => (js "srcDir", VStr (js "./src")) :: u
             | Some _ => u
             end).
  assert (own u' (js "files") = own u (js "files")) as Hf'.
  { unfold u'. destruct (own u (js "srcDir")); reflexivity. }
  assert (own u' (js "options") = own u (js "options")) as Ho'.
  { unfold u'. destruct (own u (js "srcDir")); reflexivity. }
  assert (truthy (default VUndefined (own out (js "srcDir")))
          = truthy (default VUndefined (own u' (js "srcDir")))) as Hs.
  { unfold u'. destruct (own u (js "srcDir")) as [v|] eqn:Hk.
    - rewrite Hk.
      destruct (merge_fields_kind _ _ _ _ _ _ Hout Hnd Hk)
        as [-> | [o [d [fs [-> [_ [_ ->]]]]]]]; reflexivity.
    - pose proof (merge_fields_lookup _ _ _ _ Hout Hnd (js "srcDir")) as Hl.
      rewrite Hk in Hl. rewrite Hl. reflexivity. }
  assert (truthy (default VUndefined (own out (js "files")))
            && negb (isArray (default VUndefined (own out (js "files"))))
          = truthy (default VUndefined (own u' (js "files")))
            && negb (isArray (default VUndefined (own u' (js "files"))))) as Hf.
  { rewrite Hf'.
    apply (merged_simple_check (fun x => truthy x && negb (isArray x))
             defaultConfig u (spread defaultConfig) out (js "files"));
      trivial. }
  unfold validateConfig. cbn [prop]. rewrite Hs, Hf, Ho'.
  destruct (negb (truthy (default VUndefined (own u' (js "srcDir"))))); [reflexivity|].
  destruct (truthy (default VUndefined (own u' (js "files")))
            && negb (isArray (default VUndefined (own u' (js "files")))));
    [reflexivity|].
  destruct (own u (js "options")) as [v|] eqn:Hk.
  - destruct (merge_fields_kind _ _ _ _ _ _ Hout Hnd Hk)
      as [-> | [o [d [fs [-> [Hd [Hfs ->]]]]]]]; [reflexivity|].
    change (default VUndefined (Some (VObj fs))) with (VObj fs).
    change (default VUndefined (Some (VObj o))) with (VObj o).
    cbn [truthy prop].
    assert (let P := fun x => truthy x && negb (typeof_object x) in
            P (default VUndefined (own (spread d) (js "dev"))) = P VUndefined
            /\ P (default VUndefined (own (spread d) (js "rawJsonPlugins")))
               = P VUndefined) as [Hdev Hrjp].
    { vm_compute in Hd. injection Hd as <-. split; reflexivity. }
    cbv zeta in Hdev, Hrjp.
    rewrite (merged_simple_check (fun x => truthy x && negb (typeof_object x))
               d o (spread d) fs (js "dev") ltac:(reflexivity) Hdev Hfs (Hopt o eq_refl)).
    rewrite (merged_simple_check (fun x => truthy x && negb (typeof_object x))
               d o (spread d) fs (js "rawJsonPlugins") ltac:(reflexivity) Hrjp Hfs
               (Hopt o eq_refl)).
    reflexivity.
  - pose proof (merge_fields_lookup _ _ _ _ Hout Hnd (js "options")) as Hl.
    rewrite Hk in Hl. rewrite Hl. reflexivity.
Qed.

Lemma validateConfig_after_merge_witness :
  validateConfig sample_merged
  = validateConfig
      (VObj (match own (spread sample_user) (js "srcDir") with
             | None => (js "srcDir", VStr (js "./src")) :: spread sample_user
             | Some _ => spread sample_user
             end)).
Proof.
  apply (validateConfig_after_merge (spread sample_user) sample_merged).
  - vm_compute. reflexivity.
  - apply (bool_decide_unpack _). vm_compute. exact I.
  - intros uo Huo. vm_compute in Huo. injection Huo as <-.
    apply (bool_decide_unpack _). vm_compute. exact I.
Defined.

(** X15. [findConfig] returns the first of its five names, in their order,
    that can be accessed under the start directory (the working directory
    when none is given): the path it returns is accessible and every name
    before it in the order is not; it returns [null] exactly when none of
    the five can be accessed.  So [htmlincluder.config.mjs] wins over
    [.js], that over [.json], and the [.htmlincluderrc] files come last. *)
Theorem findConfig_first_accessible (pf : Platform) (access : jsstring -> bool)
    (startDir : option jsstring) :
  match findConfig pf access startDir with
  | Some p =>
      exists i name, possibleNames !! i = Some name
        /\ p = path_join pf (default (cwd pf) startDir) name
        /\ access p = true
        /\ forall j earlier, j < i -> possibleNames !! j = Some earlier ->
             access (path_join pf (default (cwd pf) startDir) earlier) = false
  | None =>
      forall name, In name possibleNames ->
        access (path_join pf (default (cwd pf) startDir) name) = false
  end.
Proof.
  unfold findConfig. generalize (default (cwd pf) startDir) as dir.
  generalize possibleNames as names. intros names dir.
  induction names as [|name rest IH]; cbn [find_first].
  - intros name [].
  - cbv zeta. destruct (access (path_join pf dir name)) eqn:E.
    + exists 0, name. repeat split; [exact E|]. intros j earlier Hj. lia.
    + destruct (find_first pf access dir rest) as [p|].
      * destruct IH as [i [n [Hi [-> [Ha Hearlier]]]]].
        exists (S i), n. repeat split; [exact Hi | exact Ha |].
        intros [|j] earlier Hj Hlook.
        -- injection Hlook as <-. exact E.
        -- apply (Hearlier j earlier); [lia | exact Hlook].
      * intros n [<- | Hn]; [exact E | exact (IH n Hn)].
Qed.

(** Two configuration files in the working directory: the [.json] file of
    the first family is found, not the [.htmlincluderrc.json]. *)
Example findConfig_sample :
  findConfig site sample_access None = Some (js "/work/htmlincluder.config.json").
Proof. vm_compute. reflexivity. Qed.

End ConfigLoaderProperties.

(* ===================================================================== *)
(** * The two clip steps together *)
(* ===================================================================== *)

(** X16. The two steps of [processClip] compose in the order of the code:
    the bracketing clip comes first and the between-clip works on what it
    kept.  With a [ClipBetween] pair inside the bracketed text, the stored
    content is the bracketed text without the pair and what it encloses;
    whatever lies outside the bracket, clip markers included, plays no
    part. *)
Theorem processClip_bracket_then_between (f : File)
    (pre cb a cbw b ecb c rest : jsstring) :
  content f = pre ++ cb ++ (a ++ cbw ++ b ++ ecb ++ c) ++ clipafter_open ++ rest ->
  tag clipbefore_open cb ->
  tag clipbetween_open cbw ->
  tag endclipbetween_open ecb ->
  has_tag clipbefore_open pre = false ->
  has_tag clipbefore_open (a ++ cbw ++ b ++ ecb ++ c) = false ->
  occurs clipafter_open (a ++ cbw ++ b ++ ecb ++ c) = false ->
  has_tag clipbetween_open a = false ->
  has_tag clipbetween_open b = false ->
  has_tag clipbetween_open c = false ->
  has_tag endclipbetween_open b = false ->
  has_tag endclipbetween_open c = false ->
  processClip f = Ok (set_content f (a ++ c)).
Proof.
  intros Hc Hcb Hcbw Hecb Hpre Hmid Hafter Ha Hb Hcc Heb Hec.
  unfold processClip. rewrite Hc.
  rewrite (clip_before_after_interior pre cb _ rest Hcb Hpre Hmid Hafter).
  rewrite (clip_between_outside a cbw b ecb c); trivial.
Qed.

Lemma processClip_bracket_then_between_witness :
  processClip (fragment (js "/src/-card.html")
    (js "<!--#clipbetween -->x<!--#clipbefore -->a<!--#clipbetween -->b<!--#endclipbetween -->c<!--#clipafter -->y"))
  = Ok (set_content (fragment (js "/src/-card.html")
    (js "<!--#clipbetween -->x<!--#clipbefore -->a<!--#clipbetween -->b<!--#endclipbetween -->c<!--#clipafter -->y"))
          (js "a" ++ js "c")).
Proof.
  apply (processClip_bracket_then_between _ (js "<!--#clipbetween -->x")
           (js "<!--#clipbefore -->") (js "a") (js "<!--#clipbetween -->") (js "b")
           (js "<!--#endclipbetween -->") (js "c") (js " -->y")).
  - reflexivity.
  - exists (js " "). split; reflexivity.
  - exists (js " "). split; reflexivity.
  - exists (js " "). split; reflexivity.
  - reflexivity.
  - reflexivity.
  - reflexivity.
  - reflexivity.
  - reflexivity.
  - reflexivity.
  - reflexivity.
  - reflexivity.
Defined.
